(** * gadget / webgl: texture enumerations, format inference and the
      Sampler resource life cycle

    Shallow embedding of [packages/webgl/src/lib/texture/Sampler.ts] and of
    the test-suite of [textureEnums], together with models of the parts of
    the package that the two files rely on. *)

From Stdlib Require Import ZArith Lia DecimalString.
From stdpp Require Import base option list strings gmap.

Local Open Scope Z_scope.

(** ** JavaScript helpers used by the test-suite *)

Module JS.

(** Number-to-string conversion of a template literal, for the
    non-negative integers the tests interpolate. *)
Definition numberToString (n : N) : string :=
  NilZero.string_of_uint (N.to_uint n).

(** [new Map(entries)]: entries are inserted from left to right, a later
    entry replaces an earlier one with the same key. *)
Definition newMap {K V : Type} `{Countable K} (entries : list (K * V))
  : gmap K V :=
  fold_left (fun m kv => <[kv.1 := kv.2]> m) entries ∅.

End JS.

(** ** The exposed enumerations

    The enumerations are declared in [textureEnums.ts], which is not part
    of the sources at hand; the test-suite names their members.  A member
    is a number at run time ([value]), declared under a name ([name], kept
    for the storage formats, whose names the format inference reads). *)

Local Open Scope string_scope.

Module TextureMagFilter.

(** Modelled from the spec: [TextureMagFilter] is declared outside the
    sources; its members are those the test-suite names. *)
Inductive t := linear | nearest.

(** Modelled from the spec: a member has the number of the native
    constant it mirrors (invariant 4), written out as a declaration
    would. *)
Definition value (m : t) : Z :=
  match m with
  | linear => 0x2601
  | nearest => 0x2600
  end.

End TextureMagFilter.

Module TextureMinFilter.

(** Modelled from the spec: [TextureMinFilter] is declared outside the
    sources; its members are those the test-suite names. *)
Inductive t := linear | linearMipmapLinear | linearMipmapNearest | nearest
  | nearestMipmapLinear | nearestMipmapNearest.

(** Modelled from the spec: a member has the number of the native
    constant it mirrors (invariant 4), written out as a declaration
    would. *)
Definition value (m : t) : Z :=
  match m with
  | linear => 0x2601
  | linearMipmapLinear => 0x2703
  | linearMipmapNearest => 0x2701
  | nearest => 0x2600
  | nearestMipmapLinear => 0x2702
  | nearestMipmapNearest => 0x2700
  end.

End TextureMinFilter.

Module TextureCompareFunc.

(** Modelled from the spec: [TextureCompareFunc] is declared outside the
    sources; its members are those the test-suite names. *)
Inductive t := always | equal | greater | greaterOrEqual | less
  | lessOrEqual | never | notEqual.

(** Modelled from the spec: a member has the number of the native
    constant it mirrors (invariant 4), written out as a declaration
    would. *)
Definition value (m : t) : Z :=
  match m with
  | always => 0x0207
  | equal => 0x0202
  | greater => 0x0204
  | greaterOrEqual => 0x0206
  | less => 0x0201
  | lessOrEqual => 0x0203
  | never => 0x0200
  | notEqual => 0x0205
  end.

End TextureCompareFunc.

Module TextureCompareMode.

(** Modelled from the spec: [TextureCompareMode] is declared outside the
    sources; its members are those the test-suite names. *)
Inductive t := none | compareRefToTexture.

(** Modelled from the spec: a member has the number of the native
    constant it mirrors (invariant 4), written out as a declaration
    would. *)
Definition value (m : t) : Z :=
  match m with
  | none => 0
  | compareRefToTexture => 0x884E
  end.

End TextureCompareMode.

Module TextureWrap.

(** Modelled from the spec: [TextureWrap] is declared outside the
    sources; its members are those the test-suite names. *)
Inductive t := clampToEdge | mirroredRepeat | repeat.

(** Modelled from the spec: a member has the number of the native
    constant it mirrors (invariant 4), written out as a declaration
    would. *)
Definition value (m : t) : Z :=
  match m with
  | clampToEdge => 0x812F
  | mirroredRepeat => 0x8370
  | repeat => 0x2901
  end.

End TextureWrap.

Module TextureFormat.

(** Modelled from the spec: [TextureFormat] is declared outside the
    sources; its members are those the test-suite names. *)
Inductive t := alpha | luminance | luminanceAlpha | red | redInteger | rg
  | rgInteger | rgb | rgbInteger | rgba | rgbaInteger.

End TextureFormat.

Module TextureStorageFormat.

(** Modelled from the spec: [TextureStorageFormat] is declared outside the
    sources; its members are those the test-suite names. *)
Inductive t := r8 | r8snorm | rg8 | rg8snorm | rgb8 | rgb8snorm | rgba8
  | rgba8snorm | r16f | r32f | rg16f | rg32f | rgb16f | rgb32f | rgba16f
  | rgba32f | r8i | r8ui | r16i | r16ui | r32i | r32ui | rg8i | rg8ui
  | rg16i | rg16ui | rg32i | rg32ui | rgb8i | rgb8ui | rgb16i | rgb16ui
  | rgb32i | rgb32ui | rgba8i | rgba8ui | rgba16i | rgba16ui | rgba32i
  | rgba32ui | alpha | luminance | luminanceAlpha | rgb565 | rgba4
  | rgb5a1 | rgb10a2 | rgb10a2ui | srgb8 | srgb8alpha8 | r11fg11fb10f
  | rgb9e5.

(** Modelled from the spec: a member has the number of the native
    constant it mirrors (invariant 4), written out as a declaration
    would. *)
Definition value (m : t) : Z :=
  match m with
  | r8 => 0x8229
  | r8snorm => 0x8F94
  | rg8 => 0x822B
  | rg8snorm => 0x8F95
  | rgb8 => 0x8051
  | rgb8snorm => 0x8F96
  | rgba8 => 0x8058
  | rgba8snorm => 0x8F97
  | r16f => 0x822D
  | r32f => 0x822E
  | rg16f => 0x822F
  | rg32f => 0x8230
  | rgb16f => 0x881B
  | rgb32f => 0x8815
  | rgba16f => 0x881A
  | rgba32f => 0x8814
  | r8i => 0x8231
  | r8ui => 0x8232
  | r16i => 0x8233
  | r16ui => 0x8234
  | r32i => 0x8235
  | r32ui => 0x8236
  | rg8i => 0x8237
  | rg8ui => 0x8238
  | rg16i => 0x8239
  | rg16ui => 0x823A
  | rg32i => 0x823B
  | rg32ui => 0x823C
  | rgb8i => 0x8D8F
  | rgb8ui => 0x8D7D
  | rgb16i => 0x8D89
  | rgb16ui => 0x8D77
  | rgb32i => 0x8D83
  | rgb32ui => 0x8D71
  | rgba8i => 0x8D8E
  | rgba8ui => 0x8D7C
  | rgba16i => 0x8D88
  | rgba16ui => 0x8D76
  | rgba32i => 0x8D82
  | rgba32ui => 0x8D70
  | alpha => 0x1906
  | luminance => 0x1909
  | luminanceAlpha => 0x190A
  | rgb565 => 0x8D62
  | rgba4 => 0x8056
  | rgb5a1 => 0x8057
  | rgb10a2 => 0x8059
  | rgb10a2ui => 0x906F
  | srgb8 => 0x8C41
  | srgb8alpha8 => 0x8C43
  | r11fg11fb10f => 0x8C3A
  | rgb9e5 => 0x8C3D
  end.

Definition name (m : t) : string :=
  match m with
  | r8 => "r8"
  | r8snorm => "r8snorm"
  | rg8 => "rg8"
  | rg8snorm => "rg8snorm"
  | rgb8 => "rgb8"
  | rgb8snorm => "rgb8snorm"
  | rgba8 => "rgba8"
  | rgba8snorm => "rgba8snorm"
  | r16f => "r16f"
  | r32f => "r32f"
  | rg16f => "rg16f"
  | rg32f => "rg32f"
  | rgb16f => "rgb16f"
  | rgb32f => "rgb32f"
  | rgba16f => "rgba16f"
  | rgba32f => "rgba32f"
  | r8i => "r8i"
  | r8ui => "r8ui"
  | r16i => "r16i"
  | r16ui => "r16ui"
  | r32i => "r32i"
  | r32ui => "r32ui"
  | rg8i => "rg8i"
  | rg8ui => "rg8ui"
  | rg16i => "rg16i"
  | rg16ui => "rg16ui"
  | rg32i => "rg32i"
  | rg32ui => "rg32ui"
  | rgb8i => "rgb8i"
  | rgb8ui => "rgb8ui"
  | rgb16i => "rgb16i"
  | rgb16ui => "rgb16ui"
  | rgb32i => "rgb32i"
  | rgb32ui => "rgb32ui"
  | rgba8i => "rgba8i"
  | rgba8ui => "rgba8ui"
  | rgba16i => "rgba16i"
  | rgba16ui => "rgba16ui"
  | rgba32i => "rgba32i"
  | rgba32ui => "rgba32ui"
  | alpha => "alpha"
  | luminance => "luminance"
  | luminanceAlpha => "luminanceAlpha"
  | rgb565 => "rgb565"
  | rgba4 => "rgba4"
  | rgb5a1 => "rgb5a1"
  | rgb10a2 => "rgb10a2"
  | rgb10a2ui => "rgb10a2ui"
  | srgb8 => "srgb8"
  | srgb8alpha8 => "srgb8alpha8"
  | r11fg11fb10f => "r11fg11fb10f"
  | rgb9e5 => "rgb9e5"
  end.

Definition members : list t :=
  [r8; r8snorm; rg8; rg8snorm; rgb8; rgb8snorm; rgba8; rgba8snorm; r16f;
   r32f; rg16f; rg32f; rgb16f; rgb32f; rgba16f; rgba32f; r8i; r8ui; r16i;
   r16ui; r32i; r32ui; rg8i; rg8ui; rg16i; rg16ui; rg32i; rg32ui; rgb8i;
   rgb8ui; rgb16i; rgb16ui; rgb32i; rgb32ui; rgba8i; rgba8ui; rgba16i;
   rgba16ui; rgba32i; rgba32ui; alpha; luminance; luminanceAlpha; rgb565;
   rgba4; rgb5a1; rgb10a2; rgb10a2ui; srgb8; srgb8alpha8; r11fg11fb10f;
   rgb9e5 ].

End TextureStorageFormat.

Local Close Scope string_scope.

(** ** Format inference

    [inferFormatFromStorageFormat] is declared in [textureEnums.ts], which
    is not part of the sources at hand; only its test is. *)

Module FormatTable.

Inductive components := r | rg | rgb | rgba.

Inductive suffix := unorm | snorm | float | int | uint.

Inductive regular := Regular (c : components) (bits : N) (k : suffix).

Definition componentsName (c : components) : string :=
  match c with r => "r" | rg => "rg" | rgb => "rgb" | rgba => "rgba" end.

Definition suffixName (k : suffix) : string :=
  match k with
  | unorm => "" | snorm => "snorm" | float => "f" | int => "i" | uint => "ui"
  end.

(** The member name a decomposition spells. *)
Definition regularName (d : regular) : string :=
  let 'Regular c bits k := d in
  componentsName c +:+ JS.numberToString bits +:+ suffixName k.

(** Modelled from the spec: a storage format of a regular family
    decomposes into a component-count prefix, a bit depth and a
    type/normalization suffix (4.3); the members of the irregular tail do
    not. *)
Definition decompose (f : TextureStorageFormat.t) : option regular :=
  match f with
  | TextureStorageFormat.r8 => Some (Regular r 8 unorm)
  | TextureStorageFormat.r8snorm => Some (Regular r 8 snorm)
  | TextureStorageFormat.rg8 => Some (Regular rg 8 unorm)
  | TextureStorageFormat.rg8snorm => Some (Regular rg 8 snorm)
  | TextureStorageFormat.rgb8 => Some (Regular rgb 8 unorm)
  | TextureStorageFormat.rgb8snorm => Some (Regular rgb 8 snorm)
  | TextureStorageFormat.rgba8 => Some (Regular rgba 8 unorm)
  | TextureStorageFormat.rgba8snorm => Some (Regular rgba 8 snorm)
  | TextureStorageFormat.r16f => Some (Regular r 16 float)
  | TextureStorageFormat.r32f => Some (Regular r 32 float)
  | TextureStorageFormat.rg16f => Some (Regular rg 16 float)
  | TextureStorageFormat.rg32f => Some (Regular rg 32 float)
  | TextureStorageFormat.rgb16f => Some (Regular rgb 16 float)
  | TextureStorageFormat.rgb32f => Some (Regular rgb 32 float)
  | TextureStorageFormat.rgba16f => Some (Regular rgba 16 float)
  | TextureStorageFormat.rgba32f => Some (Regular rgba 32 float)
  | TextureStorageFormat.r8i => Some (Regular r 8 int)
  | TextureStorageFormat.r8ui => Some (Regular r 8 uint)
  | TextureStorageFormat.r16i => Some (Regular r 16 int)
  | TextureStorageFormat.r16ui => Some (Regular r 16 uint)
  | TextureStorageFormat.r32i => Some (Regular r 32 int)
  | TextureStorageFormat.r32ui => Some (Regular r 32 uint)
  | TextureStorageFormat.rg8i => Some (Regular rg 8 int)
  | TextureStorageFormat.rg8ui => Some (Regular rg 8 uint)
  | TextureStorageFormat.rg16i => Some (Regular rg 16 int)
  | TextureStorageFormat.rg16ui => Some (Regular rg 16 uint)
  | TextureStorageFormat.rg32i => Some (Regular rg 32 int)
  | TextureStorageFormat.rg32ui => Some (Regular rg 32 uint)
  | TextureStorageFormat.rgb8i => Some (Regular rgb 8 int)
  | TextureStorageFormat.rgb8ui => Some (Regular rgb 8 uint)
  | TextureStorageFormat.rgb16i => Some (Regular rgb 16 int)
  | TextureStorageFormat.rgb16ui => Some (Regular rgb 16 uint)
  | TextureStorageFormat.rgb32i => Some (Regular rgb 32 int)
  | TextureStorageFormat.rgb32ui => Some (Regular rgb 32 uint)
  | TextureStorageFormat.rgba8i => Some (Regular rgba 8 int)
  | TextureStorageFormat.rgba8ui => Some (Regular rgba 8 uint)
  | TextureStorageFormat.rgba16i => Some (Regular rgba 16 int)
  | TextureStorageFormat.rgba16ui => Some (Regular rgba 16 uint)
  | TextureStorageFormat.rgba32i => Some (Regular rgba 32 int)
  | TextureStorageFormat.rgba32ui => Some (Regular rgba 32 uint)
  | _ => None
  end.

Definition isInteger (k : suffix) : bool :=
  match k with int | uint => true | _ => false end.

(** Modelled from the spec: the generative rule of the regular families,
    component count to base format (4.3); an integer family has the
    integer base format of its component count, as the native API pairs
    them. *)
Definition baseFormat (d : regular) : TextureFormat.t :=
  let 'Regular c _ k := d in
  match c, isInteger k with
  | r, false => TextureFormat.red
  | r, true => TextureFormat.redInteger
  | rg, false => TextureFormat.rg
  | rg, true => TextureFormat.rgInteger
  | rgb, false => TextureFormat.rgb
  | rgb, true => TextureFormat.rgbInteger
  | rgba, false => TextureFormat.rgba
  | rgba, true => TextureFormat.rgbaInteger
  end.

(** Modelled from the spec: the explicit lookup table of the irregular
    tail (4.3), keyed by the member's number: legacy luminance/alpha
    formats, packed formats, shared-exponent and packed-float formats and
    sRGB formats, each with the base format the native API pairs it
    with. *)
Definition irregular : list (Z * TextureFormat.t) :=
  [ (TextureStorageFormat.value TextureStorageFormat.alpha,
     TextureFormat.alpha);
    (TextureStorageFormat.value TextureStorageFormat.luminance,
     TextureFormat.luminance);
    (TextureStorageFormat.value TextureStorageFormat.luminanceAlpha,
     TextureFormat.luminanceAlpha);
    (TextureStorageFormat.value TextureStorageFormat.rgb565,
     TextureFormat.rgb);
    (TextureStorageFormat.value TextureStorageFormat.rgba4,
     TextureFormat.rgba);
    (TextureStorageFormat.value TextureStorageFormat.rgb5a1,
     TextureFormat.rgba);
    (TextureStorageFormat.value TextureStorageFormat.rgb10a2,
     TextureFormat.rgba);
    (TextureStorageFormat.value TextureStorageFormat.rgb10a2ui,
     TextureFormat.rgbaInteger);
    (TextureStorageFormat.value TextureStorageFormat.srgb8,
     TextureFormat.rgb);
    (TextureStorageFormat.value TextureStorageFormat.srgb8alpha8,
     TextureFormat.rgba);
    (TextureStorageFormat.value TextureStorageFormat.r11fg11fb10f,
     TextureFormat.rgb);
    (TextureStorageFormat.value TextureStorageFormat.rgb9e5,
     TextureFormat.rgb) ].

Fixpoint lookup (table : list (Z * TextureFormat.t)) (key : Z)
  : option TextureFormat.t :=
  match table with
  | [] => None
  | (k, v) :: rest => if Z.eqb key k then Some v else lookup rest key
  end.

(** Modelled from the spec: the inference function, which is not among
    the sources: the rule for a regular member, the table for the others
    (4.3).  [None] is [undefined], the outcome for a member that neither
    part covers. *)
Definition inferFormatFromStorageFormat (internalFormat : TextureStorageFormat.t)
  : option TextureFormat.t :=
  match decompose internalFormat with
  | Some d => Some (baseFormat d)
  | None => lookup irregular (TextureStorageFormat.value internalFormat)
  end.

End FormatTable.

(** ** The test-suite of the enumerations

    The tests of [textureEnums], the second part of the source file: the
    helper [compare] and the test of the format inference.  An
    expectation is a proposition; a test passes when all its expectations
    hold.  A value is [None] when it is [undefined].  The tests that hold
    the members against the constants of the rendering context read both
    from declarations that are not among the sources. *)

Module TextureEnumsTest.

Local Open Scope string_scope.

(** [compare]: every key of the map is defined and equals its value. *)
Definition compare (set : gmap (option Z) (option Z)) : Prop :=
  map_Forall (fun key value => is_Some key /\ key = value) set.

(** [Object.values(TextureStorageFormat)]: the compiled enumeration holds
    the reverse lookups (names) next to the members (numbers). *)
Definition objectValues : list (Z + string) :=
  map (fun m => inr (TextureStorageFormat.name m)) TextureStorageFormat.members
  ++ map (fun m => inl (TextureStorageFormat.value m))
       TextureStorageFormat.members.

(** At run time a member is its number: the call on a number is the call
    on the member that has it. *)
Definition memberOfValue (internal : Z) : option TextureStorageFormat.t :=
  List.find (fun m => Z.eqb (TextureStorageFormat.value m) internal)
    TextureStorageFormat.members.

Definition inferAt (internal : Z) : option TextureFormat.t :=
  match memberOfValue internal with
  | Some m => FormatTable.inferFormatFromStorageFormat m
  | None => None
  end.

(** 'should be exhaustive' *)
Definition exhaustive : Prop :=
  Forall (fun internal =>
    match internal with
    | inl n => is_Some (inferAt n)
    | inr _ => True
    end) objectValues.

End TextureEnumsTest.

(** ** The Sampler resource *)

(** [SamplerProps]: every field is optional; [None] is an absent (or
    [undefined]) property.  The level-of-detail bounds are numbers that the
    code only passes on, never computes with; they are carried as
    integers. *)

Module SamplerProps.

Record t := {
  context : option nat;
  minFilter : option TextureMinFilter.t;
  magFilter : option TextureMagFilter.t;
  wrapS : option TextureWrap.t;
  wrapT : option TextureWrap.t;
  wrapR : option TextureWrap.t;
  minLod : option Z;
  maxLod : option Z;
  compareMode : option TextureCompareMode.t;
  compareFunc : option TextureCompareFunc.t
}.

(** An object literal with no configuration: [{}], or [{ context }]. *)
Definition only (context : option nat) : t :=
  {| context := context; minFilter := None; magFilter := None;
     wrapS := None; wrapT := None; wrapR := None;
     minLod := None; maxLod := None;
     compareMode := None; compareFunc := None |}.

Definition empty : t := only None.

End SamplerProps.

Module Sampler.

(** Native sampler objects and rendering contexts are opaque; they are
    told apart by a number. *)
Definition WebGLSampler := nat.
Definition Context := nat.

(** What a rejected promise carries. *)
Definition error := string.

(** The variables bound by the constructor's destructuring parameter,
    which the initializer closes over. *)
Record closure := {
  context : option Context;
  minFilter : TextureMinFilter.t;
  magFilter : TextureMagFilter.t;
  wrapS : TextureWrap.t;
  wrapT : TextureWrap.t;
  wrapR : TextureWrap.t;
  minLod : Z;
  maxLod : Z;
  compareMode : TextureCompareMode.t;
  compareFunc : TextureCompareFunc.t
}.

(** The parameter [{ context, minFilter = ..., ... }: SamplerProps = {}]:
    an absent argument is [{}], an absent property takes its default. *)
Definition destructure (props : option SamplerProps.t) : closure :=
  let props := default SamplerProps.empty props in
  {| context := SamplerProps.context props;
     minFilter := default TextureMinFilter.linear (SamplerProps.minFilter props);
     magFilter := default TextureMagFilter.linear (SamplerProps.magFilter props);
     wrapS := default TextureWrap.clampToEdge (SamplerProps.wrapS props);
     wrapT := default TextureWrap.clampToEdge (SamplerProps.wrapT props);
     wrapR := default TextureWrap.clampToEdge (SamplerProps.wrapR props);
     minLod := default (-1000) (SamplerProps.minLod props);
     maxLod := default 1000 (SamplerProps.maxLod props);
     compareMode :=
       default TextureCompareMode.none (SamplerProps.compareMode props);
     compareFunc :=
       default TextureCompareFunc.lessOrEqual (SamplerProps.compareFunc props)
  |}.

(** *** The native calls *)

Inductive pname :=
  | TEXTURE_MIN_FILTER | TEXTURE_MAG_FILTER
  | TEXTURE_WRAP_S | TEXTURE_WRAP_T | TEXTURE_WRAP_R
  | TEXTURE_MIN_LOD | TEXTURE_MAX_LOD
  | TEXTURE_COMPARE_MODE | TEXTURE_COMPARE_FUNC.

(** A call the context has carried out.  [createSampler] is recorded
    with the object it returned; [deleteSampler] with the argument it was
    given, which is [None] when the argument is [undefined]. *)
Inductive call :=
  | createSampler (result : WebGLSampler)
  | samplerParameteri (sampler : WebGLSampler) (p : pname) (param : Z)
  | samplerParameterf (sampler : WebGLSampler) (p : pname) (param : Z)
  | deleteSampler (sampler : option WebGLSampler).

(** The context as the resources see it: the calls it has carried out so
    far, oldest first, and the next sampler object it will hand out.  A
    call that throws is not carried out and leaves no entry. *)
Record GLState := {
  calls : list call;
  nextSampler : WebGLSampler
}.

(** *** Promises and the object *)

Inductive readiness := pending | fulfilled | rejected (reason : error).

(** A [Sampler] instance: the closure of its initializer, the [ready]
    promise it inherits and the private field [sampler] ([None] until it
    is assigned). *)
Record t := {
  captured : closure;
  ready : readiness;
  sampler : option WebGLSampler
}.

(** *** Code that runs between two suspension points

    Such code reads and writes the context and [this], and returns or
    throws.  A native call may throw instead of being carried out: the
    run carries the failure that is about to occur, if any. *)

(** After [n] more native calls, the next one throws [reason]. *)
Definition fault : Type := option (nat * error).

Inductive result (A : Type) := ok (a : A) | thrown (reason : error).
Arguments ok {A} a.
Arguments thrown {A} reason.

Definition M (A : Type) : Type :=
  fault * GLState * t -> result A * (fault * GLState * t).

Definition ret {A : Type} (a : A) : M A := fun s => (ok a, s).

Definition throw {A : Type} (reason : error) : M A :=
  fun s => (thrown reason, s).

Definition bind {A B : Type} (m : M A) (k : A -> M B) : M B :=
  fun s =>
    match m s with
    | (ok a, s') => k a s'
    | (thrown reason, s') => (thrown reason, s')
    end.

Notation "'let*' x ':=' m 'in' k" := (bind m (fun x => k))
  (at level 10, x name, m at level 100, k at level 200).
Notation "m ';;' k" := (bind m (fun _ => k))
  (at level 100, k at level 200, right associativity).

(** One native call: it throws when the failure is due, and leaves the
    context as it was; otherwise the context carries it out. *)
Definition attempt {A : Type} (carryOut : GLState -> A * GLState) : M A :=
  fun s =>
    match s.1.1 with
    | Some (O, reason) => (thrown reason, (None, s.1.2, s.2))
    | Some (S n, reason) =>
        let '(a, g) := carryOut s.1.2 in (ok a, (Some (n, reason), g, s.2))
    | None =>
        let '(a, g) := carryOut s.1.2 in (ok a, (None, g, s.2))
    end.

Definition native (c : call) : M unit :=
  attempt (fun g =>
    (tt, {| calls := calls g ++ [c]; nextSampler := nextSampler g |})).

Definition gl_createSampler : M WebGLSampler :=
  attempt (fun g =>
    let created := nextSampler g in
    (created, {| calls := calls g ++ [createSampler created];
                 nextSampler := S created |})).

Definition gl_samplerParameteri (sampler : WebGLSampler) (p : pname)
  (param : Z) : M unit :=
  native (samplerParameteri sampler p param).

Definition gl_samplerParameterf (sampler : WebGLSampler) (p : pname)
  (param : Z) : M unit :=
  native (samplerParameterf sampler p param).

Definition gl_deleteSampler (sampler : option WebGLSampler) : M unit :=
  native (deleteSampler sampler).

(** [this.sampler], read and assigned. *)
Definition this_sampler : M (option WebGLSampler) :=
  fun s => (ok (sampler s.2), s).

Definition set_this_sampler (created : WebGLSampler) : M unit :=
  fun s =>
    (ok tt, (s.1, {| captured := captured s.2; ready := ready s.2;
                     sampler := Some created |})).

(** [await signal], followed by [rest]: nothing runs while the signal is
    pending ([None]); a rejected signal throws its reason. *)
Definition await {A : Type} (signal : readiness) (rest : M A)
  : option (M A) :=
  match signal with
  | pending => None
  | fulfilled => Some rest
  | rejected reason => Some (throw reason)
  end.

(** *** The class *)

(** The initializer handed to [super]. *)
Definition initializer (c : closure) : M unit :=
  let* sampler := gl_createSampler in
  gl_samplerParameteri sampler TEXTURE_MIN_FILTER
    (TextureMinFilter.value (minFilter c)) ;;
  gl_samplerParameteri sampler TEXTURE_MAG_FILTER
    (TextureMagFilter.value (magFilter c)) ;;
  gl_samplerParameteri sampler TEXTURE_WRAP_S (TextureWrap.value (wrapS c)) ;;
  gl_samplerParameteri sampler TEXTURE_WRAP_T (TextureWrap.value (wrapT c)) ;;
  gl_samplerParameteri sampler TEXTURE_WRAP_R (TextureWrap.value (wrapR c)) ;;
  gl_samplerParameterf sampler TEXTURE_MIN_LOD (minLod c) ;;
  gl_samplerParameterf sampler TEXTURE_MAX_LOD (maxLod c) ;;
  gl_samplerParameteri sampler TEXTURE_COMPARE_MODE
    (TextureCompareMode.value (compareMode c)) ;;
  gl_samplerParameteri sampler TEXTURE_COMPARE_FUNC
    (TextureCompareFunc.value (compareFunc c)) ;;
  set_this_sampler sampler.

(** [new Sampler(props)]: nothing runs yet; the instance holds the closure
    and a pending [ready]. *)
Definition constructor (props : option SamplerProps.t) : t :=
  {| captured := destructure props; ready := pending; sampler := None |}.

Definition getSampler (this : t) : option (M (option WebGLSampler)) :=
  await (ready this) this_sampler.

Definition delete (this : t) : option (M (option WebGLSampler)) :=
  await (ready this)
    (let* sampler := this_sampler in
     gl_deleteSampler sampler ;;
     ret None).

(** *** The base class

    [ContextConsumer] ([../abstracts/ContextConsumer]) is not part of the
    sources at hand. *)

(** Modelled from the spec: the routine that [ContextConsumer] puts behind
    [ready] first awaits the context's own readiness, then runs the
    initializer (4.1). *)
Definition initialization (contextReady : readiness) (init : M unit)
  : option (M unit) :=
  await contextReady init.

(** Modelled from the spec: [ready] settles with the outcome of that
    routine, success when it returns, failure with the reason when it
    throws (4.1); [ContextConsumer] is not among the sources. *)
Definition settle (outcome : result unit) (this : t) : t :=
  {| captured := captured this;
     ready := match outcome with
              | ok _ => fulfilled
              | thrown reason => rejected reason
              end;
     sampler := sampler this |}.

End Sampler.

(** ** The event loop

    One rendering context, the samplers constructed against it and the
    pending calls of their methods.  Scheduling is cooperative: an action
    is one uninterrupted run of code between two suspension points, and
    the event loop picks which action runs next. *)

Module Runtime.

Import Sampler.

Inductive method := GetSampler | Delete.

(** Where a call of an async method stands: suspended at its [await], or
    settled with the value it returned or the reason it threw. *)
Inductive progress :=
  | suspended
  | returned (value : option WebGLSampler)
  | failed (reason : error).

Record invocation := {
  target : nat;
  called : method;
  state : progress
}.

Record world := {
  contextReady : readiness;
  gl : GLState;
  objects : list Sampler.t;
  invocations : list invocation
}.

Definition initial : world :=
  {| contextReady := pending;
     gl := {| calls := []; nextSampler := 0%nat |};
     objects := [];
     invocations := [] |}.

Inductive action :=
  | ContextReady                       (* the context's readiness succeeds *)
  | ContextFailed (reason : error)     (* ... or fails *)
  | New (props : option SamplerProps.t)  (* [new Sampler(props)] *)
  | Initialize (o : nat)               (* the routine behind [ready] resumes;
                                          no native call throws *)
  | Call (o : nat) (m : method)        (* a method is called, runs to its await *)
  | Resume (i : nat)                   (* a suspended call resumes; no
                                          native call throws *)
  | InitializeThrows (o k : nat) (reason : error)
      (* the routine resumes, and after [k] native calls the next one
         throws [reason] *)
  | ResumeThrows (i k : nat) (reason : error).
      (* a suspended call resumes, and after [k] native calls the next
         one throws [reason] *)

Definition body (m : method) (this : Sampler.t)
  : option (M (option WebGLSampler)) :=
  match m with
  | GetSampler => getSampler this
  | Delete => delete this
  end.

Definition finish (outcome : result (option WebGLSampler)) : progress :=
  match outcome with
  | ok value => returned value
  | thrown reason => failed reason
  end.

(** Modelled from the spec: the context's readiness is a single-resolution
    signal (3); the context itself is outside the sources.  It settles
    only while pending. *)
Definition settleContext (w : world) (r : readiness) : option world :=
  match contextReady w with
  | pending =>
      Some {| contextReady := r; gl := gl w;
              objects := objects w; invocations := invocations w |}
  | _ => None
  end.

(** The routine behind [ready] of object [o] resumes, with the failure
    [f] about to occur among its native calls; [None] when it cannot: the
    instance is not pending, the context has not settled, or the run does
    not get as far as the failure. *)
Definition resumeRoutine (w : world) (o : nat) (f : fault) : option world :=
  match objects w !! o with
  | Some this =>
      match ready this with
      | pending =>
          match initialization (contextReady w)
                  (initializer (captured this)) with
          | Some code =>
              match code (f, gl w, this) with
              | (outcome, (None, g, this')) =>
                  Some {| contextReady := contextReady w; gl := g;
                          objects := <[o := settle outcome this']> (objects w);
                          invocations := invocations w |}
              | (_, (Some _, _, _)) => None
              end
          | None => None
          end
      | _ => None
      end
  | None => None
  end.

(** The suspended call [i] resumes, with the failure [f] about to occur
    among its native calls; [None] when it cannot: the call is not
    suspended, the [ready] it awaits is pending, or the run does not get
    as far as the failure. *)
Definition resumeCall (w : world) (i : nat) (f : fault) : option world :=
  match invocations w !! i with
  | Some {| target := o; called := m; state := suspended |} =>
      match objects w !! o with
      | Some this =>
          match body m this with
          | Some code =>
              match code (f, gl w, this) with
              | (outcome, (None, g, this')) =>
                  Some {| contextReady := contextReady w; gl := g;
                          objects := <[o := this']> (objects w);
                          invocations := <[i := {| target := o; called := m;
                                             state := finish outcome |}]>
                                     (invocations w) |}
              | (_, (Some _, _, _)) => None
              end
          | None => None
          end
      | None => None
      end
  | _ => None
  end.

(** One action; [None] when the action cannot run in this world.  An
    instance's routine resumes once, while its [ready] is pending and
    after the context's readiness has settled; a suspended call resumes
    once the [ready] it awaits has settled.  Either run may be cut short
    by a native call that throws. *)
Definition step (w : world) (a : action) : option world :=
  match a with
  | ContextReady => settleContext w fulfilled
  | ContextFailed reason => settleContext w (rejected reason)
  | New props =>
      Some {| contextReady := contextReady w; gl := gl w;
              objects := objects w ++ [constructor props];
              invocations := invocations w |}
  | Initialize o => resumeRoutine w o None
  | InitializeThrows o k reason => resumeRoutine w o (Some (k, reason))
  | Call o m =>
      match objects w !! o with
      | Some _ =>
          Some {| contextReady := contextReady w; gl := gl w;
                  objects := objects w;
                  invocations := invocations w ++
                    [{| target := o; called := m; state := suspended |}] |}
      | None => None
      end
  | Resume i => resumeCall w i None
  | ResumeThrows i k reason => resumeCall w i (Some (k, reason))
  end.

(** A schedule, run from a world. *)
Fixpoint run (w : world) (schedule : list action) : option world :=
  match schedule with
  | [] => Some w
  | a :: rest =>
      match step w a with
      | Some w' => run w' rest
      | None => None
      end
  end.

Definition reachable (w : world) : Prop :=
  exists schedule, run initial schedule = Some w.

(** What an [await] of a promise observes once the promise has settled. *)
Definition observed (signal : readiness) : option (result unit) :=
  match signal with
  | pending => None
  | fulfilled => Some (ok tt)
  | rejected reason => Some (thrown reason)
  end.

(** The number of times the routine behind [ready] of object [o] was run
    by a schedule. *)
Definition isInitialize (o : nat) (a : action) : bool :=
  match a with
  | Initialize o' | InitializeThrows o' _ _ => Nat.eqb o o'
  | _ => false
  end.

Definition initializations (o : nat) (schedule : list action) : nat :=
  length (List.filter (isInitialize o) schedule).

(** *** Reading the log of native calls *)

(** The parameter-set calls that configure sampler [s] from a closure,
    one per field. *)
Definition parameterCalls (c : closure) (s : WebGLSampler) : list call :=
  [ samplerParameteri s TEXTURE_MIN_FILTER
      (TextureMinFilter.value (minFilter c));
    samplerParameteri s TEXTURE_MAG_FILTER
      (TextureMagFilter.value (magFilter c));
    samplerParameteri s TEXTURE_WRAP_S (TextureWrap.value (wrapS c));
    samplerParameteri s TEXTURE_WRAP_T (TextureWrap.value (wrapT c));
    samplerParameteri s TEXTURE_WRAP_R (TextureWrap.value (wrapR c));
    samplerParameterf s TEXTURE_MIN_LOD (minLod c);
    samplerParameterf s TEXTURE_MAX_LOD (maxLod c);
    samplerParameteri s TEXTURE_COMPARE_MODE
      (TextureCompareMode.value (compareMode c));
    samplerParameteri s TEXTURE_COMPARE_FUNC
      (TextureCompareFunc.value (compareFunc c)) ].

Definition setsParameterOf (s : WebGLSampler) (c : call) : bool :=
  match c with
  | samplerParameteri s' _ _ | samplerParameterf s' _ _ => Nat.eqb s s'
  | _ => false
  end.

(** The parameter-set calls a log holds on sampler [s], in order. *)
Definition parameterization (s : WebGLSampler) (log : list call)
  : list call :=
  List.filter (setsParameterOf s) log.

(** The sampler objects a call names. *)
Definition names (c : call) (s : WebGLSampler) : Prop :=
  match c with
  | createSampler s' | samplerParameteri s' _ _ | samplerParameterf s' _ _ =>
      s' = s
  | deleteSampler (Some s') => s' = s
  | deleteSampler None => False
  end.

End Runtime.

Local Close Scope Z_scope.

(** ** Invariants of the event loop *)

Module Invariant.

Import Sampler Runtime.

(** Sampler [s] has been created and configured from closure [c]: the log
    holds the initializer's calls in one piece, and no other parameter-set
    call on [s]. *)
Definition initialized (c : closure) (s : WebGLSampler) (log : list call)
  : Prop :=
  (exists before after,
     log = before ++ createSampler s :: parameterCalls c s ++ after)
  /\ parameterization s log = parameterCalls c s.

(** The context has handed out every sampler the log names. *)
Definition fresh (g : GLState) : Prop :=
  forall c s, In c (calls g) -> names c s -> (s < nextSampler g)%nat.

Definition objectOk (w : world) (this : Sampler.t) : Prop :=
  match ready this with
  | pending => sampler this = None
  | rejected reason =>
      sampler this = None
      /\ (contextReady w = rejected reason \/ contextReady w = fulfilled)
  | fulfilled =>
      exists s, sampler this = Some s
                /\ initialized (captured this) s (calls (gl w))
  end.

Definition invocationOk (w : world) (t : invocation) : Prop :=
  exists this,
    objects w !! target t = Some this
    /\ match state t with
       | suspended => True
       | failed reason =>
           ready this = rejected reason
           \/ (ready this = fulfilled /\ called t = Delete)
       | returned value =>
           ready this = fulfilled
           /\ value = match called t with
                      | GetSampler => sampler this
                      | Delete => None
                      end
       end.

(** Every [deleteSampler] in the log is given a sampler, and comes after
    the calls that created and configured that sampler. *)
Definition deletesOk (log : list call) : Prop :=
  forall before v after,
    log = before ++ deleteSampler v :: after ->
    exists s c pre mid,
      v = Some s
      /\ before = pre ++ createSampler s :: parameterCalls c s ++ mid.

Record invariant (w : world) : Prop := {
  inv_fresh : fresh (gl w);
  inv_context : contextReady w <> fulfilled -> calls (gl w) = [];
  inv_objects : forall o this, objects w !! o = Some this -> objectOk w this;
  inv_invocations : forall i t, invocations w !! i = Some t -> invocationOk w t;
  inv_deletes : deletesOk (calls (gl w))
}.

(** How often the routine behind [ready] of object [o] has run, read
    against the object's state. *)
Definition counted (w : world) (schedule : list action) (o : nat) : Prop :=
  match objects w !! o with
  | Some this =>
      (ready this = pending /\ initializations o schedule = 0%nat)
      \/ (ready this <> pending /\ initializations o schedule = 1%nat)
  | None => initializations o schedule = 0%nat
  end.

End Invariant.

(** ** Scenarios *)

Module Scenario.

Import Sampler Runtime.

(** A constructor argument that configures nothing: no argument, [{}] or
    [{ context }]. *)
Definition noConfiguration (props : option SamplerProps.t) : Prop :=
  props = None \/ exists context, props = Some (SamplerProps.only context).

(** The parameter-set calls of the default configuration on sampler [s]. *)
Definition defaultParameters (s : WebGLSampler) : list call :=
  [ samplerParameteri s TEXTURE_MIN_FILTER
      (TextureMinFilter.value TextureMinFilter.linear);
    samplerParameteri s TEXTURE_MAG_FILTER
      (TextureMagFilter.value TextureMagFilter.linear);
    samplerParameteri s TEXTURE_WRAP_S
      (TextureWrap.value TextureWrap.clampToEdge);
    samplerParameteri s TEXTURE_WRAP_T
      (TextureWrap.value TextureWrap.clampToEdge);
    samplerParameteri s TEXTURE_WRAP_R
      (TextureWrap.value TextureWrap.clampToEdge);
    samplerParameterf s TEXTURE_MIN_LOD (-1000);
    samplerParameterf s TEXTURE_MAX_LOD 1000;
    samplerParameteri s TEXTURE_COMPARE_MODE
      (TextureCompareMode.value TextureCompareMode.none);
    samplerParameteri s TEXTURE_COMPARE_FUNC
      (TextureCompareFunc.value TextureCompareFunc.lessOrEqual) ].

(** [delete], [getSampler], [delete] on object [o], each call resumed
    before the next is made; [n] is the number of calls made before. *)
Definition deleteGetDelete (o n : nat) : list action :=
  [ Call o Delete; Resume n;
    Call o GetSampler; Resume (S n);
    Call o Delete; Resume (S (S n)) ].

(** A sampler is constructed and deleted before the context is ready; its
    handle is asked for twice, once before and once after it is ready. *)
Definition readySchedule : list action :=
  [ New None; Call 0 Delete; Call 0 GetSampler; ContextReady;
    Initialize 0; Resume 1; Resume 0; Call 0 GetSampler; Resume 2 ]%nat.

Definition readyWorld : world :=
  Eval vm_compute in default initial (run initial readySchedule).

(** The context fails while a sampler waits for it. *)
Definition lostSchedule : list action :=
  [ New None; Call 0 GetSampler; Call 0 Delete;
    ContextFailed "context lost"; Initialize 0; Resume 0; Resume 1 ]%nat.

Definition lostWorld : world :=
  Eval vm_compute in default initial (run initial lostSchedule).

End Scenario.

(** ** Counting over the log, the objects and the calls *)

Module Ledger.

Import Sampler Runtime.

Definition count {A : Type} (p : A -> bool) (l : list A) : nat :=
  length (List.filter p l).

Definition isCreate (c : call) : bool :=
  match c with createSampler _ => true | _ => false end.

Definition isDelete (c : call) : bool :=
  match c with deleteSampler _ => true | _ => false end.

(** [createSampler] returned sampler [s]. *)
Definition creates (s : WebGLSampler) (c : call) : bool :=
  match c with createSampler s' => Nat.eqb s s' | _ => false end.

(** The instance's [ready] has succeeded. *)
Definition isReady (this : Sampler.t) : bool :=
  match ready this with fulfilled => true | _ => false end.

Definition isPending (this : Sampler.t) : bool :=
  match ready this with pending => true | _ => false end.

(** The instance's [ready] has failed. *)
Definition isRejected (this : Sampler.t) : bool :=
  match ready this with rejected _ => true | _ => false end.

(** The instance's [ready] has settled, either way. *)
Definition isSettled (this : Sampler.t) : bool :=
  match ready this with pending => false | _ => true end.

(** A call of [delete] that has returned. *)
Definition hasDeleted (t : invocation) : bool :=
  match called t, state t with
  | Delete, returned _ => true
  | _, _ => false
  end.

Definition isSuspended (t : invocation) : bool :=
  match state t with suspended => true | _ => false end.

(** What a run of an initializer in which a native call throws leaves
    behind: the native calls carried out before the one that threw,
    whether [createSampler] was among them, and the run itself. *)
Definition carriedBy (a : action) : nat :=
  match a with InitializeThrows _ k _ => k | _ => 0 end.

Definition startedBy (a : action) : nat :=
  match a with InitializeThrows _ (S _) _ => 1 | _ => 0 end.

Definition throwsBy (a : action) : nat :=
  match a with InitializeThrows _ _ _ => 1 | _ => 0 end.

Definition total (f : action -> nat) (schedule : list action) : nat :=
  fold_right (fun a n => f a + n) 0 schedule.

(** The books between two worlds of a run: the log grows by one
    [deleteSampler] per [delete] that returns, by one [createSampler] and
    ten calls per instance that becomes ready, and by what the runs that
    threw carried out; an instance is rejected for every such run. *)
Definition ledger (w0 w : world) (schedule : list action) : Prop :=
  count isDelete (calls (gl w)) + count hasDeleted (invocations w0)
  = count isDelete (calls (gl w0)) + count hasDeleted (invocations w)
  /\ count isCreate (calls (gl w)) + count isReady (objects w0)
     = count isCreate (calls (gl w0)) + count isReady (objects w)
       + total startedBy schedule
  /\ length (calls (gl w)) + 10 * count isReady (objects w0)
     + count hasDeleted (invocations w0)
     = length (calls (gl w0)) + 10 * count isReady (objects w)
       + count hasDeleted (invocations w) + total carriedBy schedule
  /\ count isRejected (objects w0) + total throwsBy schedule
     <= count isRejected (objects w)
  /\ count isReady (objects w0) <= count isReady (objects w)
  /\ count hasDeleted (invocations w0) <= count hasDeleted (invocations w)
  /\ total startedBy schedule <= total throwsBy schedule
  /\ total carriedBy schedule <= 9 * total throwsBy schedule.

(** What is left to run: the instances whose [ready] is pending and the
    calls suspended at their await. *)
Definition backlog (w : world) : nat :=
  count isPending (objects w) + count isSuspended (invocations w).

(** The context has handed out each sampler below [nextSampler] by one
    [createSampler], and none above. *)
Definition createdOnce (g : GLState) : Prop :=
  forall s, count (creates s) (calls g)
            = if Nat.ltb s (nextSampler g) then 1 else 0.

(** Every call that names a sampler is that sampler's [createSampler] or
    comes after it. *)
Definition createdFirst (log : list call) : Prop :=
  forall before c after s,
    log = before ++ c :: after ->
    names c s ->
    c = createSampler s \/ In (createSampler s) before.

(** No two instances hold the same native sampler. *)
Definition unshared (objs : list Sampler.t) : Prop :=
  forall o1 o2 this1 this2 s,
    objs !! o1 = Some this1 -> objs !! o2 = Some this2 ->
    sampler this1 = Some s -> sampler this2 = Some s ->
    o1 = o2.

(** Both expectations of [compare] on one entry. *)
Definition expected (entry : option Z * option Z) : Prop :=
  is_Some entry.1 /\ entry.1 = entry.2.

End Ledger.

(** ** More scenarios *)

Module Cases.

Import Sampler Runtime Scenario.

(** A configuration that sets six of the nine fields, and the context. *)
Definition custom : SamplerProps.t :=
  {| SamplerProps.context := Some 7;
     SamplerProps.minFilter := Some TextureMinFilter.nearestMipmapLinear;
     SamplerProps.magFilter := None;
     SamplerProps.wrapS := Some TextureWrap.repeat;
     SamplerProps.wrapT := None;
     SamplerProps.wrapR := Some TextureWrap.mirroredRepeat;
     SamplerProps.minLod := Some 0%Z;
     SamplerProps.maxLod := None;
     SamplerProps.compareMode := Some TextureCompareMode.compareRefToTexture;
     SamplerProps.compareFunc := Some TextureCompareFunc.greater |}.

(** Two samplers; the one constructed second is initialized first. *)
Definition customSchedule : list action :=
  [ New (Some custom); New None; ContextReady;
    Initialize 1; Initialize 0 ].

Definition customWorld : world :=
  Eval vm_compute in default initial (run initial customSchedule).

(** The context is ready, one sampler is, another is not, and three calls
    wait. *)
Definition busySchedule : list action :=
  [ New None; New None; Call 0 Delete; Call 1 GetSampler;
    ContextReady; Initialize 0; Call 0 GetSampler ].

Definition busyWorld : world :=
  Eval vm_compute in default initial (run initial busySchedule).

(** Calls made while the context has not settled. *)
Definition waitingSchedule : list action :=
  [ New None; Call 0 GetSampler; Call 0 Delete ].

Definition waitingWorld : world :=
  Eval vm_compute in default initial (run initial waitingSchedule).

(** A native call throws in the first sampler's initializer, after
    [createSampler] and six parameter-set calls; the second sampler
    becomes ready and is deleted, and [deleteSampler] throws in a second
    [delete]. *)
Definition faultySchedule : list action :=
  [ New None; New None; ContextReady;
    InitializeThrows 0 7 "out of memory"; Call 0 GetSampler;
    Initialize 1; Call 1 Delete; Resume 0; Resume 1;
    Call 1 Delete; ResumeThrows 2 0 "invalid operation" ].

Definition faultyWorld : world :=
  Eval vm_compute in default initial (run initial faultySchedule).

(** [readyWorld], after [delete], [getSampler], [delete] on its sampler. *)
Definition retiredWorld : world :=
  Eval vm_compute in default initial (run readyWorld (deleteGetDelete 0 3)).

End Cases.

(** * Properties *)

(** ** Format inference *)

Section FormatInference.

Import FormatTable.

Lemma storage_members_complete (f : TextureStorageFormat.t) :
  In f TextureStorageFormat.members.
Proof. destruct f; vm_compute; tauto. Qed.

(** The decomposition of a regular member spells the member's name. *)
Lemma decompose_spells_name (f : TextureStorageFormat.t) (d : regular) :
  decompose f = Some d -> regularName d = TextureStorageFormat.name f.
Proof. destruct f; intros [= <-] || discriminate; reflexivity. Qed.

(** A member outside the regular families has its own row in the table. *)
Lemma irregular_covers_tail (f : TextureStorageFormat.t) :
  decompose f = None ->
  is_Some (lookup irregular (TextureStorageFormat.value f)).
Proof. destruct f; (discriminate || (intros _; vm_compute; eauto)). Qed.

Lemma inferFormat_defined (f : TextureStorageFormat.t) :
  is_Some (inferFormatFromStorageFormat f).
Proof.
  unfold inferFormatFromStorageFormat.
  destruct (decompose f) as [d|] eqn:E; [eauto|].
  by apply irregular_covers_tail.
Qed.

Lemma memberOfValue_value (f : TextureStorageFormat.t) :
  TextureEnumsTest.memberOfValue (TextureStorageFormat.value f) = Some f.
Proof. destruct f; reflexivity. Qed.

(** C1: format inference is total over the storage-format enumeration:
    [inferFormatFromStorageFormat] returns a base format for every member
    of [TextureStorageFormat] (never [undefined]), and so the scan of the
    test 'should be exhaustive' meets no undefined outcome. *)
Theorem inferFormatFromStorageFormat_total :
  (forall f : TextureStorageFormat.t,
     exists base : TextureFormat.t,
       inferFormatFromStorageFormat f = Some base)
  /\ TextureEnumsTest.exhaustive.
Proof.
  split.
  - intros f. destruct (inferFormat_defined f) as [base E]. eauto.
  - unfold TextureEnumsTest.exhaustive, TextureEnumsTest.objectValues.
    apply Forall_app. split; apply List.Forall_forall; intros v Hv;
      apply List.in_map_iff in Hv as (m & <- & _); [exact I|].
    unfold TextureEnumsTest.inferAt. rewrite memberOfValue_value.
    apply inferFormat_defined.
Qed.

End FormatInference.

(** ** The resource life cycle *)

Section Lifecycle.

Import Sampler Runtime Invariant Scenario.

(** What the initializer does, in one piece. *)
Lemma initializer_runs (c : closure) (g : GLState) (this : Sampler.t) :
  initializer c (None, g, this) =
  (ok tt,
   (None,
    {| calls := calls g ++ createSampler (nextSampler g)
                  :: parameterCalls c (nextSampler g);
       nextSampler := S (nextSampler g) |},
    {| captured := captured this; ready := ready this;
       sampler := Some (nextSampler g) |})).
Proof.
  unfold initializer, bind, gl_createSampler, gl_samplerParameteri,
    gl_samplerParameterf, native, attempt, set_this_sampler, parameterCalls.
  simpl. repeat rewrite <- app_assoc. reflexivity.
Qed.

(** The initializer when a native call throws: the calls before it are
    carried out, [this] is left as it was. *)
Lemma initializer_throws (c : closure) (g : GLState) (this : Sampler.t)
  (k : nat) (reason : error) :
  k < 10 ->
  initializer c (Some (k, reason) : fault, g, this) =
  (thrown reason,
   (None,
    {| calls := calls g ++ take k (createSampler (nextSampler g)
                                    :: parameterCalls c (nextSampler g));
       nextSampler := match k with
                      | O => nextSampler g
                      | S _ => S (nextSampler g)
                      end |},
    this)).
Proof.
  intros Hk. unfold initializer, bind, gl_createSampler, gl_samplerParameteri,
    gl_samplerParameterf, native, attempt, set_this_sampler, parameterCalls.
  destruct k as [|k]; [simpl; rewrite app_nil_r; by destruct g|].
  do 9 (destruct k as [|k];
        [simpl; repeat rewrite <- app_assoc; reflexivity|]).
  lia.
Qed.

(** A failure that is due after the initializer's last native call does
    not occur in its run. *)
Lemma initializer_outlasts (c : closure) (g : GLState) (this : Sampler.t)
  (k : nat) (reason : error) :
  10 <= k ->
  (initializer c (Some (k, reason) : fault, g, this)).2.1.1
  = Some (k - 10, reason).
Proof.
  intros Hk. unfold initializer, bind, gl_createSampler, gl_samplerParameteri,
    gl_samplerParameterf, native, attempt, set_this_sampler.
  do 10 (destruct k as [|k]; [lia|]). simpl. by rewrite Nat.sub_0_r.
Qed.

Lemma getSampler_runs (this : Sampler.t) (g : GLState) :
  ready this = fulfilled ->
  exists code, getSampler this = Some code
               /\ code (None, g, this)
                  = (ok (sampler this), (None, g, this)).
Proof. intros E. unfold getSampler. rewrite E. simpl. eauto. Qed.

Lemma delete_runs (this : Sampler.t) (g : GLState) :
  ready this = fulfilled ->
  exists code,
    delete this = Some code
    /\ code (None, g, this) =
       (ok None,
        (None, {| calls := calls g ++ [deleteSampler (sampler this)];
                  nextSampler := nextSampler g |}, this)).
Proof. intros E. unfold delete. rewrite E. simpl. eauto. Qed.

Lemma step_Initialize_inv (w w' : world) (o : nat) :
  step w (Initialize o) = Some w' ->
  exists this,
    objects w !! o = Some this /\ ready this = pending
    /\ invocations w' = invocations w /\ contextReady w' = contextReady w
    /\ ((contextReady w = fulfilled
         /\ gl w' = {| calls := calls (gl w)
                         ++ createSampler (nextSampler (gl w))
                            :: parameterCalls (captured this)
                                 (nextSampler (gl w));
                       nextSampler := S (nextSampler (gl w)) |}
         /\ objects w' =
            <[o := {| captured := captured this; ready := fulfilled;
                      sampler := Some (nextSampler (gl w)) |}]> (objects w))
        \/ (exists reason,
              contextReady w = rejected reason
              /\ gl w' = gl w
              /\ objects w' =
                 <[o := {| captured := captured this;
                           ready := rejected reason;
                           sampler := sampler this |}]> (objects w))).
Proof.
  intros H. unfold step, resumeRoutine in H.
  destruct (objects w !! o) as [this|] eqn:Eo; [|discriminate].
  destruct (ready this) eqn:Er; try discriminate.
  unfold initialization, await in H. exists this.
  destruct (contextReady w) as [| |reason] eqn:Ec; [discriminate| |].
  - rewrite initializer_runs in H. injection H as <-. simpl.
    repeat split; auto.
  - unfold throw in H. injection H as <-. simpl.
    repeat split; auto. right. exists reason. auto.
Qed.

Lemma step_InitializeThrows_inv (w w' : world) (o k : nat)
  (reason : error) :
  step w (InitializeThrows o k reason) = Some w' ->
  exists this,
    objects w !! o = Some this /\ ready this = pending
    /\ invocations w' = invocations w /\ contextReady w' = contextReady w
    /\ contextReady w = fulfilled
    /\ k < 10
    /\ gl w' = {| calls := calls (gl w)
                    ++ take k (createSampler (nextSampler (gl w))
                               :: parameterCalls (captured this)
                                    (nextSampler (gl w)));
                  nextSampler := match k with
                                 | O => nextSampler (gl w)
                                 | S _ => S (nextSampler (gl w))
                                 end |}
    /\ objects w' =
       <[o := {| captured := captured this; ready := rejected reason;
                 sampler := sampler this |}]> (objects w).
Proof.
  intros H. unfold step, resumeRoutine in H.
  destruct (objects w !! o) as [this|] eqn:Eo; [|discriminate].
  destruct (ready this) eqn:Er; try discriminate.
  unfold initialization, await in H. exists this.
  destruct (contextReady w) as [| |r] eqn:Ec; [discriminate| |].
  - destruct (Nat.lt_ge_cases k 10) as [Hk|Hk].
    + rewrite (initializer_throws _ _ _ _ _ Hk) in H. injection H as <-.
      simpl. by repeat split.
    + pose proof (initializer_outlasts (captured this) (gl w) this k
                    reason Hk) as E.
      destruct (initializer (captured this)
                  (Some (k, reason) : fault, gl w, this))
        as [outcome [[f0 g0] this0]].
      simpl in E. rewrite E in H. discriminate.
  - unfold throw in H. discriminate.
Qed.

Lemma step_Resume_inv (w w' : world) (i : nat) :
  step w (Resume i) = Some w' ->
  exists o m this,
    invocations w !! i = Some {| target := o; called := m; state := suspended |}
    /\ objects w !! o = Some this
    /\ contextReady w' = contextReady w /\ objects w' = objects w
    /\ ((ready this = fulfilled /\ m = GetSampler /\ gl w' = gl w
         /\ invocations w' = <[i := {| target := o; called := m;
                                 state := returned (sampler this) |}]>
                         (invocations w))
        \/ (ready this = fulfilled /\ m = Delete
            /\ gl w' = {| calls := calls (gl w)
                            ++ [deleteSampler (sampler this)];
                          nextSampler := nextSampler (gl w) |}
            /\ invocations w' = <[i := {| target := o; called := m;
                                    state := returned None |}]> (invocations w))
        \/ (exists reason,
              ready this = rejected reason /\ gl w' = gl w
              /\ invocations w' = <[i := {| target := o; called := m;
                                      state := failed reason |}]>
                              (invocations w))).
Proof.
  intros H. unfold step, resumeCall in H.
  destruct (invocations w !! i) as [[o m st]|] eqn:Et; [|discriminate].
  destruct st; try discriminate.
  destruct (objects w !! o) as [this|] eqn:Eo; [|discriminate].
  unfold body, getSampler, delete, await in H.
  exists o, m, this.
  destruct (ready this) as [| |reason] eqn:Er; [destruct m; discriminate| |].
  - destruct m; simpl in H; injection H as <-; simpl;
      rewrite (list_insert_id _ _ _ Eo); repeat split; auto;
      first [ by left | by right; left ].
  - destruct m; simpl in H; injection H as <-; simpl;
      rewrite (list_insert_id _ _ _ Eo); repeat split; auto;
      right; right; by exists reason.
Qed.

(** The one native call of a method is [deleteSampler], in [delete]
    once [ready] has succeeded: a call that resumes and throws is such a
    [delete], and leaves the context and the objects as they were. *)
Lemma step_ResumeThrows_inv (w w' : world) (i k : nat) (reason : error) :
  step w (ResumeThrows i k reason) = Some w' ->
  exists o this,
    invocations w !! i
    = Some {| target := o; called := Delete; state := suspended |}
    /\ objects w !! o = Some this
    /\ ready this = fulfilled
    /\ k = 0
    /\ contextReady w' = contextReady w /\ objects w' = objects w
    /\ gl w' = gl w
    /\ invocations w' = <[i := {| target := o; called := Delete;
                               state := failed reason |}]> (invocations w).
Proof.
  intros H. unfold step, resumeCall in H.
  destruct (invocations w !! i) as [[o m st]|] eqn:Et; [|discriminate].
  destruct st; try discriminate.
  destruct (objects w !! o) as [this|] eqn:Eo; [|discriminate].
  unfold body, getSampler, delete, await in H.
  destruct (ready this) as [| |r] eqn:Er.
  - destruct m; discriminate.
  - destruct m; [simpl in H; discriminate|].
    destruct k; simpl in H; [|discriminate].
    injection H as <-. simpl. rewrite (list_insert_id _ _ _ Eo).
    exists o, this. by repeat split.
  - destruct m; simpl in H; discriminate.
Qed.

(** *** Splitting a log that grew at its end *)

Lemma log_split_old (log new before after : list call) (x : call) :
  log ++ new = before ++ x :: after ->
  ~ In x new ->
  exists after', log = before ++ x :: after' /\ after = after' ++ new.
Proof.
  intros E Hx. apply List.app_eq_app in E as [m [[E1 E2]|[E1 E2]]].
  - destruct m as [|y m]; simpl in E2.
    + subst new. exfalso. apply Hx. by left.
    + injection E2 as <- ->. eauto.
  - exfalso. apply Hx. rewrite E2. apply in_elt.
Qed.

Lemma log_split_last (log before after : list call) (x y : call) :
  log ++ [y] = before ++ x :: after ->
  (before = log /\ x = y /\ after = [])
  \/ (exists after', log = before ++ x :: after' /\ after = after' ++ [y]).
Proof.
  intros E. apply List.app_eq_app in E as [m [[E1 E2]|[E1 E2]]].
  - destruct m as [|z m]; simpl in E2.
    + injection E2 as <- <-. left. rewrite app_nil_r in E1. auto.
    + injection E2 as <- ->. right. eauto.
  - destruct m as [|z m]; simpl in E2.
    + injection E2 as <- <-. left. rewrite app_nil_r in E1. auto.
    + injection E2 as _ E2. by destruct m.
Qed.

(** *** Parameter-set calls of other samplers *)

Lemma parameterization_app (s : WebGLSampler) (l1 l2 : list call) :
  parameterization s (l1 ++ l2)
  = parameterization s l1 ++ parameterization s l2.
Proof. apply List.filter_app. Qed.

Lemma setsParameterOf_names (s : WebGLSampler) (c : call) :
  setsParameterOf s c = true -> names c s.
Proof.
  destruct c; simpl; try discriminate;
    intros E; apply Nat.eqb_eq in E; auto.
Qed.

Lemma parameterization_none (s : WebGLSampler) (log : list call) :
  (forall c, In c log -> ~ names c s) -> parameterization s log = [].
Proof.
  induction log as [|c log IH]; intros Hn; [reflexivity|]. simpl.
  destruct (setsParameterOf s c) eqn:E.
  - exfalso. apply (Hn c); [by left|]. by apply setsParameterOf_names.
  - apply IH. intros c' Hc'. apply Hn. by right.
Qed.

Lemma parameterization_own (c : closure) (s : WebGLSampler) :
  parameterization s (createSampler s :: parameterCalls c s)
  = parameterCalls c s.
Proof.
  unfold parameterization, parameterCalls. simpl.
  rewrite Nat.eqb_refl. reflexivity.
Qed.

Lemma parameterization_other (c : closure) (s n : WebGLSampler) :
  s <> n ->
  parameterization s (createSampler n :: parameterCalls c n) = [].
Proof.
  intros Hne. unfold parameterization, parameterCalls. simpl.
  apply Nat.eqb_neq in Hne. rewrite Hne. reflexivity.
Qed.

Lemma initialized_created (c : closure) (s : WebGLSampler)
  (log : list call) :
  initialized c s log -> In (createSampler s) log.
Proof. intros [(before & after & ->) _]. apply in_elt. Qed.

Lemma initialized_grow (c : closure) (s : WebGLSampler)
  (log new : list call) :
  initialized c s log ->
  parameterization s new = [] ->
  initialized c s (log ++ new).
Proof.
  intros [(before & after & E) Hp] Hnew. split.
  - exists before, (after ++ new). rewrite E.
    by rewrite <- app_assoc, <- app_comm_cons, <- app_assoc.
  - rewrite parameterization_app, Hp, Hnew. apply app_nil_r.
Qed.

Lemma fresh_created (g : GLState) (c : closure) (s : WebGLSampler) :
  fresh g -> initialized c s (calls g) -> (s < nextSampler g)%nat.
Proof.
  intros Hf Hi. apply (Hf (createSampler s)); [|reflexivity].
  by eapply initialized_created.
Qed.

(** *** The invariant holds in every reachable world *)

Lemma invariant_initial : invariant initial.
Proof.
  split; simpl.
  - intros c s [].
  - reflexivity.
  - intros o this Ho. by rewrite lookup_nil in Ho.
  - intros i t Ht. by rewrite lookup_nil in Ht.
  - intros before v after E. by destruct before.
Qed.

Lemma invariant_settleContext (w w' : world) (r : readiness) :
  invariant w -> settleContext w r = Some w' -> invariant w'.
Proof.
  intros [Hf Hc Ho Ht Hd]. unfold settleContext.
  destruct (contextReady w) eqn:Ec; try discriminate. intros [= <-].
  split; simpl; auto.
  intros o this Hthis. specialize (Ho o this Hthis).
    unfold objectOk in *. simpl. rewrite Ec in Ho.
    destruct (ready this); auto.
    destruct Ho as [_ [?|?]]; discriminate.
Qed.

Lemma invariant_New (w : world) (props : option SamplerProps.t) :
  invariant w ->
  invariant {| contextReady := contextReady w; gl := gl w;
               objects := objects w ++ [constructor props];
               invocations := invocations w |}.
Proof.
  intros [Hf Hc Ho Ht Hd]. split; simpl; auto.
  - intros o this Hthis. apply lookup_app_Some in Hthis as [Hthis|[_ Hthis]].
    + apply (Ho o this Hthis).
    + apply list_lookup_singleton_Some in Hthis as [_ <-]. reflexivity.
  - intros i t Hi. destruct (Ht i t Hi) as (this & Hthis & Hs).
    exists this. split; [|exact Hs]. simpl. by apply lookup_app_l_Some.
Qed.

Lemma invariant_Call (w : world) (o : nat) (m : method) (this : Sampler.t) :
  invariant w ->
  objects w !! o = Some this ->
  invariant {| contextReady := contextReady w; gl := gl w;
               objects := objects w;
               invocations := invocations w ++
                 [{| target := o; called := m; state := suspended |}] |}.
Proof.
  intros [Hf Hc Ho Ht Hd] Hthis. split; simpl; auto.
  intros i t Hi. apply lookup_app_Some in Hi as [Hi|[_ Hi]].
  - apply (Ht i t Hi).
  - apply list_lookup_singleton_Some in Hi as [_ <-].
    exists this. simpl. auto.
Qed.

Lemma initializer_calls_name (c : closure) (n s : WebGLSampler)
  (x : call) :
  In x (createSampler n :: parameterCalls c n) -> names x s -> s = n.
Proof.
  unfold parameterCalls. simpl. intros Hin Hn.
  repeat (destruct Hin as [<-|Hin]; [simpl in Hn; congruence|]).
  destruct Hin.
Qed.

Lemma objectOk_grow (w w' : world) (this : Sampler.t) (new : list call) :
  contextReady w' = contextReady w ->
  calls (gl w') = calls (gl w) ++ new ->
  (forall s, In (createSampler s) (calls (gl w)) ->
             parameterization s new = []) ->
  objectOk w this -> objectOk w' this.
Proof.
  intros Hc Hlog Hnew. unfold objectOk. rewrite Hc, Hlog.
  destruct (ready this); auto.
  intros (s & Hs & Hi). exists s. split; [exact Hs|].
  apply initialized_grow; [exact Hi|].
  apply Hnew. by eapply initialized_created.
Qed.

Lemma invocationOk_settle (w w' : world) (o : nat) (this new : Sampler.t)
  (t : invocation) :
  objects w !! o = Some this -> ready this = pending ->
  objects w' = <[o := new]> (objects w) ->
  invocationOk w t -> invocationOk w' t.
Proof.
  intros Hthis Hp Hobj (this' & Hl & Hs). unfold invocationOk. rewrite Hobj.
  destruct (decide (target t = o)) as [E|Hne].
  - exists new. rewrite E in *. split.
    + apply list_lookup_insert_eq. by eapply lookup_lt_Some.
    + assert (this' = this) as -> by congruence.
      destruct (state t); [exact I| |]; rewrite Hp in Hs.
      * by destruct Hs.
      * destruct Hs as [Hs|[Hs _]]; discriminate.
  - exists this'. split; [|exact Hs]. by rewrite list_lookup_insert_ne.
Qed.

Lemma invariant_Initialize (w w' : world) (o : nat) :
  invariant w -> step w (Initialize o) = Some w' -> invariant w'.
Proof.
  intros [Hf Hc Ho Ht Hd] Hstep.
  destruct (step_Initialize_inv _ _ _ Hstep)
    as (this & Hthis & Hp & Hinvs & Hctx & Hcase).
  pose proof (Ho o this Hthis) as Hold. unfold objectOk in Hold.
  rewrite Hp in Hold.
  assert (Hlen : (o < length (objects w))%nat) by by eapply lookup_lt_Some.
  destruct Hcase as [(Hready & Hgl & Hobj)|(reason & Hfail & Hgl & Hobj)].
  - set (n := nextSampler (gl w)) in *.
    assert (Hnone : parameterization n (calls (gl w)) = []).
    { apply parameterization_none. intros c Hin Hn.
      pose proof (Hf c n Hin Hn). unfold n in *. lia. }
    split.
    + rewrite Hgl. intros c s Hin Hn. simpl in *.
      apply in_app_or in Hin as [Hin|Hin].
      * pose proof (Hf c s Hin Hn). lia.
      * rewrite (initializer_calls_name _ _ _ _ Hin Hn). unfold n. lia.
    + rewrite Hctx. intros Hne. by destruct Hne.
    + intros o' this' Hl. rewrite Hobj in Hl.
      destruct (decide (o' = o)) as [->|Hne].
      * rewrite list_lookup_insert_eq in Hl by exact Hlen.
        injection Hl as <-. unfold objectOk. simpl.
        exists n. split; [reflexivity|]. rewrite Hgl. simpl. split.
        -- exists (calls (gl w)), []. by rewrite app_nil_r.
        -- by rewrite parameterization_app, Hnone, parameterization_own.
      * rewrite list_lookup_insert_ne in Hl by auto.
        eapply (objectOk_grow w); [exact Hctx|by rewrite Hgl| |by eapply Ho].
        intros s Hs. apply parameterization_other.
        pose proof (Hf _ s Hs eq_refl). unfold n. lia.
    + rewrite Hinvs. intros i t Hi.
      eapply invocationOk_settle; [exact Hthis|exact Hp|exact Hobj|by eapply Ht].
    + rewrite Hgl. simpl. intros before v after E.
      apply log_split_old in E as (after' & E & _); [by eapply Hd|].
      intros Hin. unfold parameterCalls in Hin. simpl in Hin.
      repeat (destruct Hin as [?|Hin]; [discriminate|]). destruct Hin.
  - split.
    + by rewrite Hgl.
    + rewrite Hgl. intros _. apply Hc. congruence.
    + intros o' this' Hl. rewrite Hobj in Hl.
      destruct (decide (o' = o)) as [->|Hne].
      * rewrite list_lookup_insert_eq in Hl by exact Hlen.
        injection Hl as <-. unfold objectOk. simpl.
        split; [exact Hold|left; congruence].
      * rewrite list_lookup_insert_ne in Hl by auto.
        eapply (objectOk_grow w _ _ []);
          [exact Hctx|by rewrite Hgl, app_nil_r|reflexivity|by eapply Ho].
    + rewrite Hinvs. intros i t Hi.
      eapply invocationOk_settle; [exact Hthis|exact Hp|exact Hobj|by eapply Ht].
    + by rewrite Hgl.
Qed.

Lemma in_take_block (k : nat) (block : list call) (c : call) :
  In c (take k block) -> In c block.
Proof.
  intros Hin. rewrite <- (take_drop k block). apply in_or_app. by left.
Qed.

Lemma invariant_InitializeThrows (w w' : world) (o k : nat)
  (reason : error) :
  invariant w -> step w (InitializeThrows o k reason) = Some w' ->
  invariant w'.
Proof.
  intros [Hf Hc Ho Ht Hd] Hstep.
  destruct (step_InitializeThrows_inv _ _ _ _ _ Hstep)
    as (this & Hthis & Hp & Hinvs & Hctx & Hready & Hk & Hgl & Hobj).
  pose proof (Ho o this Hthis) as Hold. unfold objectOk in Hold.
  rewrite Hp in Hold.
  assert (Hlen : (o < length (objects w))%nat) by by eapply lookup_lt_Some.
  set (n := nextSampler (gl w)) in *.
  set (block := createSampler n :: parameterCalls (captured this) n) in *.
  split.
  - rewrite Hgl. intros c s Hin Hn. simpl in *.
    apply in_app_or in Hin as [Hin|Hin].
    + pose proof (Hf c s Hin Hn). destruct k; unfold n; lia.
    + destruct k as [|k]; [destruct Hin|].
      apply in_take_block in Hin.
      rewrite (initializer_calls_name _ _ _ _ Hin Hn). unfold n. lia.
  - rewrite Hctx. intros Hne. by destruct Hne.
  - intros o' this' Hl. rewrite Hobj in Hl.
    destruct (decide (o' = o)) as [->|Hne].
    + rewrite list_lookup_insert_eq in Hl by exact Hlen.
      injection Hl as <-. unfold objectOk. simpl.
      split; [exact Hold|right; congruence].
    + rewrite list_lookup_insert_ne in Hl by auto.
      eapply (objectOk_grow w); [exact Hctx|by rewrite Hgl| |by eapply Ho].
      intros s Hs. apply parameterization_none. intros c Hin Hn.
      apply in_take_block in Hin.
      pose proof (initializer_calls_name _ _ _ _ Hin Hn) as E.
      pose proof (Hf _ s Hs eq_refl). unfold n in *. lia.
  - rewrite Hinvs. intros i t Hi.
    eapply invocationOk_settle; [exact Hthis|exact Hp|exact Hobj|by eapply Ht].
  - rewrite Hgl. simpl. intros before v after E.
    apply log_split_old in E as (after' & E & _); [by eapply Hd|].
    intros Hin. apply in_take_block in Hin.
    unfold block, parameterCalls in Hin. simpl in Hin.
    repeat (destruct Hin as [?|Hin]; [discriminate|]). destruct Hin.
Qed.

Lemma invocationOk_same_objects (w w' : world) (t : invocation) :
  objects w' = objects w -> invocationOk w t -> invocationOk w' t.
Proof. unfold invocationOk. by intros ->. Qed.

Lemma invocations_finish (w w' : world) (i : nat) (t' : invocation) :
  objects w' = objects w ->
  invocations w' = <[i := t']> (invocations w) ->
  invocationOk w' t' ->
  (forall j t, invocations w !! j = Some t -> invocationOk w t) ->
  forall j t, invocations w' !! j = Some t -> invocationOk w' t.
Proof.
  intros Hobj Hinvs Hnew Hold j t Hj. rewrite Hinvs in Hj.
  destruct (decide (j = i)) as [->|Hne].
  - destruct (decide (i < length (invocations w))%nat) as [Hlt|Hge].
    + rewrite list_lookup_insert_eq in Hj by exact Hlt. by injection Hj as <-.
    + rewrite list_insert_ge in Hj by lia.
      eapply invocationOk_same_objects; [exact Hobj|by eapply Hold].
  - rewrite list_lookup_insert_ne in Hj by auto.
    eapply invocationOk_same_objects; [exact Hobj|by eapply Hold].
Qed.

Lemma invariant_Resume (w w' : world) (i : nat) :
  invariant w -> step w (Resume i) = Some w' -> invariant w'.
Proof.
  intros [Hf Hc Ho Ht Hd] Hstep.
  destruct (step_Resume_inv _ _ _ Hstep)
    as (o & m & this & Hti & Hthis & Hctx & Hobj & Hcase).
  pose proof (Ho o this Hthis) as Hold. unfold objectOk in Hold.
  assert (Hkeep : forall o' this',
            gl w' = gl w -> objects w' !! o' = Some this' ->
            objectOk w' this').
  { intros o' this' Hgl Hl. rewrite Hobj in Hl.
    eapply (objectOk_grow w _ _ []);
      [exact Hctx|by rewrite Hgl, app_nil_r|reflexivity|by eapply Ho]. }
  destruct Hcase as [(Hr & -> & Hgl & Hinvs)
                    |[(Hr & -> & Hgl & Hinvs)
                     |(reason & Hr & Hgl & Hinvs)]].
  - split.
    + by rewrite Hgl.
    + by rewrite Hgl, Hctx.
    + intros o' this' Hl. by eapply Hkeep.
    + eapply invocations_finish; [exact Hobj|exact Hinvs| |exact Ht].
      exists this. rewrite Hobj. simpl. auto.
    + by rewrite Hgl.
  - rewrite Hr in Hold. destruct Hold as (s & Hs & Hi). split.
    + rewrite Hgl. intros c s' Hin Hn. simpl in *.
      apply in_app_or in Hin as [Hin|[<-|[]]].
      * by eapply Hf.
      * rewrite Hs in Hn. simpl in Hn. subst s'.
        by eapply fresh_created.
    + rewrite Hctx. intros Hne. apply Hc in Hne.
      apply initialized_created in Hi. rewrite Hne in Hi. destruct Hi.
    + intros o' this' Hl. rewrite Hobj in Hl.
      eapply (objectOk_grow w);
        [exact Hctx|by rewrite Hgl|reflexivity|by eapply Ho].
    + eapply invocations_finish; [exact Hobj|exact Hinvs| |exact Ht].
      exists this. rewrite Hobj. simpl. auto.
    + rewrite Hgl. simpl. intros before v after E.
      apply log_split_last in E as [(-> & [= ->] & _)|(after' & E & _)];
        [|by eapply Hd].
      destruct Hi as [(pre & mid & Elog) _].
      exists s, (captured this), pre, mid. split; [exact Hs|exact Elog].
  - split.
    + by rewrite Hgl.
    + by rewrite Hgl, Hctx.
    + intros o' this' Hl. by eapply Hkeep.
    + eapply invocations_finish; [exact Hobj|exact Hinvs| |exact Ht].
      exists this. rewrite Hobj. simpl. auto.
    + by rewrite Hgl.
Qed.

Lemma invariant_ResumeThrows (w w' : world) (i k : nat) (reason : error) :
  invariant w -> step w (ResumeThrows i k reason) = Some w' -> invariant w'.
Proof.
  intros [Hf Hc Ho Ht Hd] Hstep.
  destruct (step_ResumeThrows_inv _ _ _ _ _ Hstep)
    as (o & this & Hti & Hthis & Hr & _ & Hctx & Hobj & Hgl & Hinvs).
  split.
  - by rewrite Hgl.
  - by rewrite Hgl, Hctx.
  - intros o' this' Hl. rewrite Hobj in Hl.
    eapply (objectOk_grow w _ _ []);
      [exact Hctx|by rewrite Hgl, app_nil_r|reflexivity|by eapply Ho].
  - eapply invocations_finish; [exact Hobj|exact Hinvs| |exact Ht].
    exists this. rewrite Hobj. simpl. auto.
  - by rewrite Hgl.
Qed.

Lemma step_invariant (w w' : world) (a : action) :
  invariant w -> step w a = Some w' -> invariant w'.
Proof.
  intros Hinv Hstep.
  destruct a as [|reason|props|o|o m|i|o k reason|i k reason].
  - by eapply invariant_settleContext.
  - by eapply invariant_settleContext.
  - injection Hstep as <-. by apply invariant_New.
  - by eapply invariant_Initialize.
  - simpl in Hstep. destruct (objects w !! o) as [this|] eqn:Ho;
      [|discriminate].
    injection Hstep as <-. by eapply invariant_Call.
  - by eapply invariant_Resume.
  - by eapply invariant_InitializeThrows.
  - by eapply invariant_ResumeThrows.
Qed.

Lemma run_invariant (schedule : list action) (w w' : world) :
  invariant w -> run w schedule = Some w' -> invariant w'.
Proof.
  revert w. induction schedule as [|a rest IH]; intros w Hinv Hrun.
  - by injection Hrun as <-.
  - simpl in Hrun. destruct (step w a) as [w1|] eqn:Hstep; [|discriminate].
    eapply IH; [|exact Hrun]. by eapply step_invariant.
Qed.

Lemma reachable_invariant (w : world) : reachable w -> invariant w.
Proof. intros [schedule Hrun]. by eapply run_invariant, Hrun; apply invariant_initial. Qed.

(** *** Schedules *)

Lemma run_app (w : world) (s1 s2 : list action) :
  run w (s1 ++ s2)
  = match run w s1 with Some w1 => run w1 s2 | None => None end.
Proof.
  revert w. induction s1 as [|a s1 IH]; intros w; [reflexivity|].
  simpl. destruct (step w a); [apply IH|reflexivity].
Qed.

Lemma run_cons (w : world) (a : action) (rest : list action) :
  run w (a :: rest)
  = match step w a with Some w1 => run w1 rest | None => None end.
Proof. reflexivity. Qed.

Lemma run_snoc (w w' : world) (schedule : list action) (a : action) :
  run w (schedule ++ [a]) = Some w' ->
  exists w1, run w schedule = Some w1 /\ step w1 a = Some w'.
Proof.
  rewrite run_app. destruct (run w schedule) as [w1|]; [|discriminate].
  simpl. destruct (step w1 a) as [w2|] eqn:E; [|discriminate].
  intros [= <-]. eauto.
Qed.

(** *** An object once settled stays as it is *)

(** What a run of the routine behind [ready] does to the world, whether
    or not a native call throws in it. *)
Lemma routine_settles (w w' : world) (o : nat) (f : fault) :
  resumeRoutine w o f = Some w' ->
  exists old new,
    objects w !! o = Some old /\ ready old = pending
    /\ objects w' = <[o := new]> (objects w)
    /\ captured new = captured old /\ ready new <> pending
    /\ invocations w' = invocations w
    /\ contextReady w' = contextReady w
    /\ contextReady w <> pending.
Proof.
  intros H. destruct f as [[k reason]|].
  - change (step w (InitializeThrows o k reason) = Some w') in H.
    destruct (step_InitializeThrows_inv _ _ _ _ _ H)
      as (old & Hold & Hp & Hi & Hc & Hr & _ & _ & Hobj).
    exists old. eexists. split; [exact Hold|]. split; [exact Hp|].
    split; [exact Hobj|]. simpl. repeat split; auto; congruence.
  - change (step w (Initialize o) = Some w') in H.
    destruct (step_Initialize_inv _ _ _ H)
      as (old & Hold & Hp & Hi & Hc & Hcase).
    destruct Hcase as [(Hr & _ & Hobj)|(reason & Hr & _ & Hobj)];
      exists old; eexists; (split; [exact Hold|]); (split; [exact Hp|]);
      (split; [exact Hobj|]); simpl; repeat split; auto; congruence.
Qed.

Lemma step_object (w w' : world) (a : action) (o : nat)
  (this : Sampler.t) :
  step w a = Some w' ->
  objects w !! o = Some this ->
  exists this',
    objects w' !! o = Some this'
    /\ captured this' = captured this
    /\ (ready this <> pending -> this' = this).
Proof.
  intros Hstep Hthis.
  assert (Hroutine : forall o0 f,
            resumeRoutine w o0 f = Some w' ->
            exists this',
              objects w' !! o = Some this'
              /\ captured this' = captured this
              /\ (ready this <> pending -> this' = this)).
  { intros o0 f Hr.
    destruct (routine_settles _ _ _ _ Hr)
      as (old & new & Hold & Hp & -> & Hcap & _).
    destruct (decide (o = o0)) as [->|Hne].
    - exists new. assert (this = old) as -> by congruence.
      split; [|split; [exact Hcap|by intros []]].
      apply list_lookup_insert_eq. by eapply lookup_lt_Some.
    - exists this. by rewrite list_lookup_insert_ne. }
  destruct a as [|reason|props|o0|o0 m|i|o0 k reason|i k reason].
  8: { destruct (step_ResumeThrows_inv _ _ _ _ _ Hstep)
         as (_ & _ & _ & _ & _ & _ & _ & -> & _). eauto. }
  - simpl in Hstep. unfold settleContext in Hstep.
    destruct (contextReady w); try discriminate.
    injection Hstep as <-. simpl. eauto.
  - simpl in Hstep. unfold settleContext in Hstep.
    destruct (contextReady w); try discriminate.
    injection Hstep as <-. simpl. eauto.
  - injection Hstep as <-. simpl. exists this.
    split; [by apply lookup_app_l_Some|auto].
  - by eapply Hroutine.
  - simpl in Hstep. destruct (objects w !! o0); [|discriminate].
    injection Hstep as <-. simpl. eauto.
  - destruct (step_Resume_inv _ _ _ Hstep)
      as (_ & _ & _ & _ & _ & _ & -> & _). eauto.
  - by eapply Hroutine.
Qed.

Lemma run_object (schedule : list action) (w w' : world) (o : nat)
  (this : Sampler.t) :
  run w schedule = Some w' ->
  objects w !! o = Some this ->
  exists this',
    objects w' !! o = Some this'
    /\ captured this' = captured this
    /\ (ready this <> pending -> this' = this).
Proof.
  revert w this. induction schedule as [|a rest IH]; intros w this Hrun Hthis.
  - injection Hrun as <-. eauto.
  - simpl in Hrun. destruct (step w a) as [w1|] eqn:Hstep; [|discriminate].
    destruct (step_object _ _ _ _ _ Hstep Hthis) as (this1 & H1 & Hc1 & Hs1).
    destruct (IH _ _ Hrun H1) as (this' & H' & Hc' & Hs').
    exists this'. split; [exact H'|]. split; [congruence|].
    intros Hne. rewrite (Hs1 Hne) in *. auto.
Qed.

(** *** The context's readiness settles once, by its own action *)

Lemma step_contextReady (w w' : world) (a : action) :
  step w a = Some w' ->
  (contextReady w' = contextReady w
   /\ a <> ContextReady /\ forall reason, a <> ContextFailed reason)
  \/ (contextReady w = pending
      /\ ((a = ContextReady /\ contextReady w' = fulfilled)
          \/ exists reason, a = ContextFailed reason
                            /\ contextReady w' = rejected reason)).
Proof.
  intros Hstep.
  destruct a as [|reason|props|o0|o0 m|i|o0 k reason|i k reason].
  8: { left. destruct (step_ResumeThrows_inv _ _ _ _ _ Hstep)
         as (_ & _ & _ & _ & _ & _ & -> & _). by repeat split. }
  7: { left. destruct (routine_settles _ _ _ _ Hstep)
         as (_ & _ & _ & _ & _ & _ & _ & _ & -> & _). by repeat split. }
  - right. simpl in Hstep. unfold settleContext in Hstep.
    destruct (contextReady w); try discriminate.
    injection Hstep as <-. auto.
  - right. simpl in Hstep. unfold settleContext in Hstep.
    destruct (contextReady w); try discriminate.
    injection Hstep as <-. split; [reflexivity|]. right. eauto.
  - left. injection Hstep as <-. by repeat split.
  - left. destruct (step_Initialize_inv _ _ _ Hstep)
      as (_ & _ & _ & _ & -> & _). by repeat split.
  - left. simpl in Hstep. destruct (objects w !! o0); [|discriminate].
    injection Hstep as <-. by repeat split.
  - left. destruct (step_Resume_inv _ _ _ Hstep)
      as (_ & _ & _ & _ & _ & -> & _). by repeat split.
Qed.

Lemma run_contextReady (schedule : list action) (w w' : world) :
  run w schedule = Some w' ->
  contextReady w' = contextReady w
  \/ (contextReady w = pending
      /\ ((In ContextReady schedule /\ contextReady w' = fulfilled)
          \/ exists reason, In (ContextFailed reason) schedule
                            /\ contextReady w' = rejected reason)).
Proof.
  revert w. induction schedule as [|a rest IH]; intros w Hrun.
  - injection Hrun as <-. by left.
  - simpl in Hrun. destruct (step w a) as [w1|] eqn:Hstep; [|discriminate].
    destruct (step_contextReady _ _ _ Hstep)
      as [(E1 & _)|(Hp & Hcase)]; destruct (IH _ Hrun) as [E2|(Hp2 & Hcase2)].
    + left. congruence.
    + right. split; [congruence|].
      destruct Hcase2 as [(Hin & E)|(reason & Hin & E)].
      * left. split; [by right|exact E].
      * right. exists reason. split; [by right|exact E].
    + right. split; [exact Hp|].
      destruct Hcase as [(-> & E)|(reason & -> & E)].
      * left. split; [by left|congruence].
      * right. exists reason. split; [by left|congruence].
    + exfalso. destruct Hcase as [(_ & E)|(reason & _ & E)]; congruence.
Qed.

(** *** Counting the runs of the routine behind [ready] *)

Lemma initializations_snoc (o : nat) (schedule : list action)
  (a : action) :
  initializations o (schedule ++ [a])
  = (initializations o schedule
     + if isInitialize o a then 1 else 0)%nat.
Proof.
  unfold initializations. rewrite List.filter_app, length_app. simpl.
  by destruct (isInitialize o a).
Qed.

Lemma initializations_counted (schedule : list action) (w : world) :
  run initial schedule = Some w -> forall o, counted w schedule o.
Proof.
  revert w. induction schedule as [|a schedule IH] using rev_ind;
    intros w Hrun o.
  - injection Hrun as <-. reflexivity.
  - apply run_snoc in Hrun as (w1 & Hrun & Hstep).
    specialize (IH w1 Hrun o). unfold counted in *.
    rewrite initializations_snoc.
    assert (Hroutine : forall o0 f,
              resumeRoutine w1 o0 f = Some w ->
              match objects w !! o with
              | Some this =>
                  ready this = pending
                  /\ initializations o schedule
                     + (if Nat.eqb o o0 then 1 else 0) = 0
                  \/ ready this <> pending
                     /\ initializations o schedule
                        + (if Nat.eqb o o0 then 1 else 0) = 1
              | None =>
                  initializations o schedule
                  + (if Nat.eqb o o0 then 1 else 0) = 0
              end).
    { intros o0 f Hr.
      destruct (routine_settles _ _ _ _ Hr)
        as (old & new & Hold & Hp & -> & _ & Hnew & _).
      destruct (decide (o = o0)) as [->|Hne].
      - rewrite Nat.eqb_refl.
        rewrite list_lookup_insert_eq by by eapply lookup_lt_Some.
        rewrite Hold in IH. right. split; [exact Hnew|].
        destruct IH as [[_ ->]|[Hne _]]; [reflexivity|by destruct Hne].
      - apply Nat.eqb_neq in Hne as Hb. rewrite Hb, Nat.add_0_r.
        by rewrite list_lookup_insert_ne. }
    destruct a as [|reason|props|o0|o0 m|i|o0 k reason|i k reason];
      [| | |exact (Hroutine o0 None Hstep)| |
       |exact (Hroutine o0 (Some (k, reason)) Hstep)|].
    6: { destruct (step_ResumeThrows_inv _ _ _ _ _ Hstep)
           as (_ & _ & _ & _ & _ & _ & _ & -> & _).
         simpl. by rewrite Nat.add_0_r. }
    + simpl in Hstep. unfold settleContext in Hstep.
      destruct (contextReady w1); try discriminate.
      injection Hstep as <-. simpl. by rewrite Nat.add_0_r.
    + simpl in Hstep. unfold settleContext in Hstep.
      destruct (contextReady w1); try discriminate.
      injection Hstep as <-. simpl. by rewrite Nat.add_0_r.
    + injection Hstep as <-. simpl. rewrite Nat.add_0_r.
      destruct (objects w1 !! o) as [this|] eqn:Ho.
      * by rewrite (lookup_app_l_Some _ _ _ _ Ho).
      * destruct ((objects w1 ++ [constructor props]) !! o) as [this|] eqn:Hn;
          [|exact IH].
        apply lookup_app_Some in Hn as [Hn|[_ Hn]]; [congruence|].
        apply list_lookup_singleton_Some in Hn as [_ <-]. by left.
    + simpl in Hstep. destruct (objects w1 !! o0); [|discriminate].
      injection Hstep as <-. simpl. by rewrite Nat.add_0_r.
    + destruct (step_Resume_inv _ _ _ Hstep)
        as (_ & _ & _ & _ & _ & _ & -> & _).
      simpl. by rewrite Nat.add_0_r.
Qed.

Lemma reachable_run (w w' : world) (later : list action) :
  reachable w -> run w later = Some w' -> reachable w'.
Proof.
  intros [schedule Hrun] Hlater. exists (schedule ++ later).
  by rewrite run_app, Hrun.
Qed.

(** C4: the routine behind [ready] resumes in a world where the
    context's readiness has already settled, by an earlier action of the
    schedule; and a native call has been issued only where the context's
    readiness has succeeded.  A run of the routine in which a native call
    throws comes after the context's readiness has succeeded. *)
Theorem context_ready_before_initialization (schedule : list action)
  (w : world) :
  run initial schedule = Some w ->
  (forall before o after,
     schedule = before ++ Initialize o :: after ->
     exists w0,
       run initial before = Some w0
       /\ contextReady w0 <> pending
       /\ (In ContextReady before
           \/ exists reason, In (ContextFailed reason) before))
  /\ (calls (gl w) <> [] ->
      contextReady w = fulfilled /\ In ContextReady schedule)
  /\ (forall before o k reason after,
        schedule = before ++ InitializeThrows o k reason :: after ->
        exists w0,
          run initial before = Some w0
          /\ contextReady w0 = fulfilled
          /\ In ContextReady before).
Proof.
  intros Hrun. split; [|split].
  3: { intros before o k reason after ->. rewrite run_app in Hrun.
       destruct (run initial before) as [w0|] eqn:Hbefore; [|discriminate].
       rewrite run_cons in Hrun.
       destruct (step w0 (InitializeThrows o k reason)) as [w1|] eqn:Hstep;
         [|discriminate].
       exists w0. split; [reflexivity|].
       destruct (step_InitializeThrows_inv _ _ _ _ _ Hstep)
         as (this & _ & _ & _ & _ & Hc & _).
       split; [exact Hc|].
       destruct (run_contextReady _ _ _ Hbefore)
         as [E|(_ & [(Hin & _)|(r & _ & E)])]; [|exact Hin|];
         simpl in *; congruence. }
  - intros before o after ->. rewrite run_app in Hrun.
    destruct (run initial before) as [w0|] eqn:Hbefore; [|discriminate].
    rewrite run_cons in Hrun.
    destruct (step w0 (Initialize o)) as [w1|] eqn:Hstep; [|discriminate].
    exists w0. split; [reflexivity|].
    destruct (step_Initialize_inv _ _ _ Hstep)
      as (this & _ & _ & _ & _ & Hcase).
    assert (Hne : contextReady w0 <> pending).
    { destruct Hcase as [(-> & _)|(reason & -> & _)]; discriminate. }
    split; [exact Hne|].
    destruct (run_contextReady _ _ _ Hbefore)
      as [E|(_ & [(Hin & _)|(reason & Hin & _)])]; eauto.
    by destruct Hne.
  - intros Hcalls.
    assert (Hinv : invariant w) by (apply reachable_invariant; by exists schedule).
    destruct (contextReady w) eqn:Hc.
    + destruct Hcalls. apply (inv_context _ Hinv). congruence.
    + split; [reflexivity|].
      destruct (run_contextReady _ _ _ Hrun)
        as [E|(_ & [(Hin & _)|(reason & _ & E)])]; [|exact Hin|];
        simpl in *; congruence.
    + destruct Hcalls. apply (inv_context _ Hinv). congruence.
Qed.

(** C5: where the context's readiness has failed, no native call has
    been issued, no sampler is ready, every sampler is rejected with the
    context's reason or is about to be (its routine can resume, and then
    rejects without a native call), and this stays so in every later
    world; no run gets as far as a native call that could throw. *)
Theorem context_failure_propagates (w : world) (reason : error) :
  reachable w ->
  contextReady w = rejected reason ->
  calls (gl w) = []
  /\ (forall o this,
        objects w !! o = Some this ->
        ready this = rejected reason
        \/ (ready this = pending
            /\ exists w' this',
                 step w (Initialize o) = Some w'
                 /\ objects w' !! o = Some this'
                 /\ ready this' = rejected reason
                 /\ calls (gl w') = []))
  /\ (forall later w',
        run w later = Some w' ->
        contextReady w' = rejected reason /\ calls (gl w') = [])
  /\ (forall o k reason', step w (InitializeThrows o k reason') = None)
  /\ (forall i k reason', step w (ResumeThrows i k reason') = None).
Proof.
  intros Hreach Hc.
  assert (Hinv : invariant w) by by apply reachable_invariant.
  assert (Hlog : calls (gl w) = []).
  { apply (inv_context _ Hinv). congruence. }
  split; [exact Hlog|]. split; [|split; [|split]].
  4: { intros i k reason'.
       destruct (step w (ResumeThrows i k reason')) as [w'|] eqn:Hstep;
         [|reflexivity].
       destruct (step_ResumeThrows_inv _ _ _ _ _ Hstep)
         as (o & this & _ & Hthis & Hr & _).
       pose proof (inv_objects _ Hinv o this Hthis) as Hok.
       unfold objectOk in Hok. rewrite Hr in Hok.
       destruct Hok as (s & _ & Hi). apply initialized_created in Hi.
       rewrite Hlog in Hi. destruct Hi. }
  3: { intros o k reason'. unfold step, resumeRoutine.
       destruct (objects w !! o) as [this|]; [|done].
       destruct (ready this); try done. by rewrite Hc. }
  - intros o this Hthis.
    pose proof (inv_objects _ Hinv o this Hthis) as Hok.
    unfold objectOk in Hok. destruct (ready this) as [| |r] eqn:Hr.
    + right. split; [reflexivity|].
      unfold step, resumeRoutine. rewrite Hthis, Hr, Hc. simpl.
      eexists _, _. split; [reflexivity|]. simpl.
      split; [apply list_lookup_insert_eq; by eapply lookup_lt_Some|].
      by split.
    + destruct Hok as (s & _ & Hi). apply initialized_created in Hi.
      rewrite Hlog in Hi. destruct Hi.
    + left. destruct Hok as [_ [E|E]]; congruence.
  - intros later w' Hlater.
    assert (Hc' : contextReady w' = rejected reason).
    { destruct (run_contextReady _ _ _ Hlater) as [E|(E & _)]; congruence. }
    split; [exact Hc'|].
    apply (inv_context w').
    + apply reachable_invariant. by eapply reachable_run.
    + congruence.
Qed.

(** *** Calls that resume on a settled object *)

Lemma await_pending {A : Type} (signal : readiness) (rest : M A) :
  await signal rest = None <-> signal = pending.
Proof. destruct signal; simpl; split; congruence. Qed.

Lemma call_then_resume (w : world) (o : nat) (m : method)
  (this : Sampler.t) :
  objects w !! o = Some this ->
  ready this = fulfilled ->
  run w [Call o m; Resume (length (invocations w))] =
  Some {| contextReady := contextReady w;
          gl := match m with
                | GetSampler => gl w
                | Delete =>
                    {| calls := calls (gl w)
                                  ++ [deleteSampler (sampler this)];
                       nextSampler := nextSampler (gl w) |}
                end;
          objects := objects w;
          invocations := invocations w ++
            [{| target := o; called := m;
                state := returned match m with
                                  | GetSampler => sampler this
                                  | Delete => None
                                  end |}] |}.
Proof.
  intros Hthis Hr. rewrite run_cons. unfold step at 1. rewrite Hthis.
  rewrite run_cons. unfold step, resumeCall.
  cbn [invocations objects gl contextReady].
  rewrite list_lookup_middle by reflexivity. rewrite Hthis.
  unfold body, getSampler, delete, await. rewrite Hr.
  destruct m; simpl;
    rewrite insert_app_r_alt by reflexivity;
    rewrite Nat.sub_diag, (list_insert_id _ _ _ Hthis);
    by destruct (gl w).
Qed.

(** C6: [getSampler] does not run past its await while [ready] is
    pending; when it resumes it leaves the objects and the context as they
    are and returns the stored handle; and any two calls on one object that
    returned, returned the same sampler. *)
Theorem getSampler_repeatable (w : world) :
  reachable w ->
  (forall this, getSampler this = None <-> ready this = pending)
  /\ (forall i o w',
        invocations w !! i
        = Some {| target := o; called := GetSampler; state := suspended |} ->
        step w (Resume i) = Some w' ->
        exists this,
          objects w !! o = Some this
          /\ ready this <> pending
          /\ objects w' = objects w
          /\ gl w' = gl w
          /\ contextReady w' = contextReady w
          /\ invocations w' !! i
             = Some {| target := o; called := GetSampler;
                       state := match ready this with
                                | rejected reason => failed reason
                                | _ => returned (sampler this)
                                end |})
  /\ (forall i j o vi vj,
        invocations w !! i
        = Some {| target := o; called := GetSampler;
                  state := returned vi |} ->
        invocations w !! j
        = Some {| target := o; called := GetSampler;
                  state := returned vj |} ->
        exists this s,
          objects w !! o = Some this
          /\ sampler this = Some s /\ vi = Some s /\ vj = Some s).
Proof.
  intros Hreach. pose proof (reachable_invariant _ Hreach) as Hinv.
  split; [|split].
  - intros this. apply await_pending.
  - intros i o w' Hi Hstep.
    destruct (step_Resume_inv _ _ _ Hstep)
      as (o' & m & this & Hi' & Hthis & Hctx & Hobj & Hcase).
    rewrite Hi in Hi'. injection Hi' as <- <-.
    assert (Hlt : (i < length (invocations w))%nat) by by eapply lookup_lt_Some.
    exists this. split; [exact Hthis|].
    destruct Hcase as [(Hr & _ & Hgl & Ht)
                      |[(_ & [=] & _)|(reason & Hr & Hgl & Ht)]];
      rewrite Hr, Ht, list_lookup_insert_eq by exact Hlt; by repeat split.
  - intros i j o vi vj Hi Hj.
    destruct (inv_invocations _ Hinv _ _ Hi) as (this & Hthis & Hr & ->).
    destruct (inv_invocations _ Hinv _ _ Hj) as (this' & Hthis' & _ & ->).
    simpl in *. assert (this' = this) as -> by congruence.
    pose proof (inv_objects _ Hinv _ _ Hthis) as Hok.
    unfold objectOk in Hok. rewrite Hr in Hok.
    destruct Hok as (s & Hs & _). exists this, s. by rewrite Hs.
Qed.

(** C7: [delete] does not run past its await while [ready] is pending,
    whatever was called before it; it issues the native delete only on an
    object whose [ready] has succeeded; and every [deleteSampler] in the
    log is given a sampler and comes after the calls that created and
    configured that sampler.  A call whose native call throws is a
    [delete] that got past its await on a [ready] that has succeeded. *)
Theorem delete_awaits_ready (w : world) :
  reachable w ->
  (forall this, delete this = None <-> ready this = pending)
  /\ (forall i o w',
        invocations w !! i
        = Some {| target := o; called := Delete; state := suspended |} ->
        step w (Resume i) = Some w' ->
        exists this,
          objects w !! o = Some this
          /\ ready this <> pending
          /\ (calls (gl w') <> calls (gl w) -> ready this = fulfilled))
  /\ (forall before v after,
        calls (gl w) = before ++ deleteSampler v :: after ->
        exists s c pre mid,
          v = Some s
          /\ before = pre ++ createSampler s :: parameterCalls c s ++ mid)
  /\ (forall i k reason w',
        step w (ResumeThrows i k reason) = Some w' ->
        exists o this,
          invocations w !! i
          = Some {| target := o; called := Delete; state := suspended |}
          /\ objects w !! o = Some this
          /\ ready this = fulfilled
          /\ gl w' = gl w).
Proof.
  intros Hreach. pose proof (reachable_invariant _ Hreach) as Hinv.
  split; [|split; [|split]].
  4: { intros i k reason w' Hstep.
       destruct (step_ResumeThrows_inv _ _ _ _ _ Hstep)
         as (o & this & Hi & Hthis & Hr & _ & _ & _ & Hgl & _).
       by exists o, this. }
  - intros this. apply await_pending.
  - intros i o w' Hi Hstep.
    destruct (step_Resume_inv _ _ _ Hstep)
      as (o' & m & this & Hi' & Hthis & Hctx & Hobj & Hcase).
    rewrite Hi in Hi'. injection Hi' as <- <-.
    exists this. split; [exact Hthis|].
    destruct Hcase as [(_ & [=] & _)
                      |[(Hr & _ & Hgl & _)|(reason & Hr & Hgl & _)]];
      rewrite Hr; (split; [discriminate|]); [reflexivity|].
    rewrite Hgl. by intros [].
  - apply (inv_deletes _ Hinv).
Qed.

(** C9: on a ready object, [delete] then [getSampler] then [delete] run
    through; the objects ([ready] and the stored handle among their
    fields) and the context's readiness are as before, [getSampler] still
    returns the stored handle, and the log has grown by two
    [deleteSampler] calls on that same handle. *)
Theorem delete_keeps_state (w : world) (o : nat) (this : Sampler.t) :
  objects w !! o = Some this ->
  ready this = fulfilled ->
  exists w',
    run w (deleteGetDelete o (length (invocations w))) = Some w'
    /\ objects w' = objects w
    /\ contextReady w' = contextReady w
    /\ nextSampler (gl w') = nextSampler (gl w)
    /\ calls (gl w')
       = calls (gl w) ++ [deleteSampler (sampler this);
                          deleteSampler (sampler this)]
    /\ invocations w' !! S (length (invocations w))
       = Some {| target := o; called := GetSampler;
                 state := returned (sampler this) |}.
Proof.
  intros Hthis Hr. unfold deleteGetDelete.
  set (n := length (invocations w)).
  change [Call o Delete; Resume n; Call o GetSampler; Resume (S n);
          Call o Delete; Resume (S (S n))]
    with ([Call o Delete; Resume n]
            ++ [Call o GetSampler; Resume (S n)]
            ++ [Call o Delete; Resume (S (S n))]).
  rewrite run_app. unfold n. rewrite (call_then_resume w o Delete this Hthis Hr).
  match goal with |- context [run ?x (_ ++ _)] => set (w1 := x) end.
  assert (H1 : objects w1 !! o = Some this) by exact Hthis.
  assert (L1 : S (length (invocations w)) = length (invocations w1)).
  { unfold w1. simpl. rewrite length_app. simpl. lia. }
  rewrite run_app, L1, (call_then_resume w1 o GetSampler this H1 Hr).
  match goal with |- context [run ?x [_; _]] => set (w2 := x) end.
  assert (H2 : objects w2 !! o = Some this) by exact Hthis.
  assert (L2 : S (length (invocations w1)) = length (invocations w2)).
  { unfold w2, w1. simpl. rewrite !length_app. simpl. lia. }
  rewrite L2, (call_then_resume w2 o Delete this H2 Hr).
  eexists. split; [reflexivity|]. simpl. repeat split.
  - by rewrite <- app_assoc.
  - rewrite lookup_app_l.
    + apply list_lookup_middle. reflexivity.
    + rewrite !length_app. simpl. lia.
Qed.

(** C2: a sampler constructed with no configuration is, once its
    [ready] has succeeded, a native sampler that was created and then
    given exactly the nine default parameters, one parameter-set call per
    field: linear filters, clamp-to-edge on s, t and r, level of detail
    from -1000 to 1000, no comparison mode, comparison by less-or-equal.
    While it is pending and the context is ready, the run of its routine
    in which no native call throws ends in success. *)
Theorem default_configuration (w w' : world)
  (props : option SamplerProps.t) (later : list action) :
  reachable w ->
  noConfiguration props ->
  run w (New props :: later) = Some w' ->
  exists this,
    objects w' !! length (objects w) = Some this
    /\ (ready this = fulfilled ->
        exists s,
          sampler this = Some s
          /\ In (createSampler s) (calls (gl w'))
          /\ parameterization s (calls (gl w')) = defaultParameters s)
    /\ (ready this = pending ->
        contextReady w' = fulfilled ->
        exists w'' this'',
          step w' (Initialize (length (objects w))) = Some w''
          /\ objects w'' !! length (objects w) = Some this''
          /\ ready this'' = fulfilled).
Proof.
  intros Hreach Hprops Hrun.
  pose proof (reachable_run _ _ _ Hreach Hrun) as Hreach'.
  apply reachable_invariant in Hreach'.
  rewrite run_cons in Hrun. cbn [step] in Hrun.
  match type of Hrun with run ?x _ = _ => set (w1 := x) in Hrun end.
  assert (Hnew : objects w1 !! length (objects w) = Some (constructor props)).
  { unfold w1. simpl. by apply list_lookup_middle. }
  destruct (run_object _ _ _ _ _ Hrun Hnew) as (this & Hthis & Hcap & _).
  exists this. split; [exact Hthis|]. split.
  - intros Hr.
    pose proof (inv_objects _ Hreach' _ _ Hthis) as Hok.
    unfold objectOk in Hok. rewrite Hr in Hok.
    destruct Hok as (s & Hs & Hi). exists s. split; [exact Hs|].
    split; [by eapply initialized_created|].
    destruct Hi as [_ ->]. rewrite Hcap.
    by destruct Hprops as [->|[context ->]].
  - intros Hp Hc. unfold step, resumeRoutine. rewrite Hthis, Hp, Hc.
    unfold initialization, await. rewrite initializer_runs.
    eexists _, _. split; [reflexivity|]. simpl.
    split; [apply list_lookup_insert_eq; by eapply lookup_lt_Some|].
    reflexivity.
Qed.

(** C10: the constructor takes no argument at all: the nine configuration
    variables take their defaults, the context is absent, and the instance
    is the one that [{}] gives; constructing it is possible in every
    world. *)
Theorem constructor_without_argument :
  constructor None
  = {| captured :=
         {| context := None;
            minFilter := TextureMinFilter.linear;
            magFilter := TextureMagFilter.linear;
            wrapS := TextureWrap.clampToEdge;
            wrapT := TextureWrap.clampToEdge;
            wrapR := TextureWrap.clampToEdge;
            minLod := -1000;
            maxLod := 1000;
            compareMode := TextureCompareMode.none;
            compareFunc := TextureCompareFunc.lessOrEqual |};
       ready := pending;
       sampler := None |}
  /\ constructor None = constructor (Some SamplerProps.empty)
  /\ (forall w, exists w',
        step w (New None) = Some w'
        /\ objects w' = objects w ++ [constructor None]).
Proof.
  split; [reflexivity|]. split; [reflexivity|].
  intros w. eexists. split; reflexivity.
Qed.

(** *** The theorems at work on the two scenarios *)

Lemma readyWorld_reachable : reachable readyWorld.
Proof. exists readySchedule. reflexivity. Qed.

Lemma lostWorld_reachable : reachable lostWorld.
Proof. exists lostSchedule. reflexivity. Qed.

Example defaults_on_first_sampler :
  parameterization 0 (calls (gl readyWorld)) = defaultParameters 0.
Proof. reflexivity. Qed.

Lemma default_configuration_witness :
  reachable initial
  /\ noConfiguration None
  /\ run initial readySchedule = Some readyWorld
  /\ exists this,
       objects readyWorld !! 0%nat = Some this
       /\ (ready this = fulfilled ->
           exists s,
             sampler this = Some s
             /\ In (createSampler s) (calls (gl readyWorld))
             /\ parameterization s (calls (gl readyWorld))
                = defaultParameters s)
       /\ (ready this = pending ->
           contextReady readyWorld = fulfilled ->
           exists w'' this'',
             step readyWorld (Initialize 0) = Some w''
             /\ objects w'' !! 0%nat = Some this''
             /\ ready this'' = fulfilled).
Proof.
  assert (H0 : reachable initial) by (exists []; reflexivity).
  assert (H1 : noConfiguration None) by (left; reflexivity).
  assert (H2 : run initial (New None :: tail readySchedule)
               = Some readyWorld) by reflexivity.
  split; [exact H0|]. split; [exact H1|]. split; [exact H2|].
  exact (default_configuration initial readyWorld None _ H0 H1 H2).
Defined.

Lemma context_ready_before_initialization_witness :
  run initial readySchedule = Some readyWorld
  /\ (calls (gl readyWorld) <> [] ->
      contextReady readyWorld = fulfilled /\ In ContextReady readySchedule).
Proof.
  assert (H : run initial readySchedule = Some readyWorld) by reflexivity.
  split; [exact H|].
  exact (proj1 (proj2 (context_ready_before_initialization
                         readySchedule readyWorld H))).
Defined.

Lemma context_failure_propagates_witness :
  reachable lostWorld
  /\ contextReady lostWorld = rejected "context lost"
  /\ calls (gl lostWorld) = [].
Proof.
  assert (H : contextReady lostWorld = rejected "context lost")
    by reflexivity.
  split; [exact lostWorld_reachable|]. split; [exact H|].
  exact (proj1 (context_failure_propagates lostWorld "context lost"
                  lostWorld_reachable H)).
Defined.

Lemma getSampler_repeatable_witness :
  reachable readyWorld
  /\ forall this, getSampler this = None <-> ready this = pending.
Proof.
  split; [exact readyWorld_reachable|].
  exact (proj1 (getSampler_repeatable readyWorld readyWorld_reachable)).
Defined.

Lemma delete_awaits_ready_witness :
  reachable readyWorld
  /\ forall this, delete this = None <-> ready this = pending.
Proof.
  split; [exact readyWorld_reachable|].
  exact (proj1 (delete_awaits_ready readyWorld readyWorld_reachable)).
Defined.

Lemma delete_keeps_state_witness :
  objects readyWorld !! 0%nat = Some (settle (ok tt)
    {| captured := destructure None; ready := pending;
       sampler := Some 0%nat |})
  /\ exists w',
       run readyWorld (deleteGetDelete 0 3) = Some w'
       /\ objects w' = objects readyWorld
       /\ contextReady w' = contextReady readyWorld
       /\ nextSampler (gl w') = nextSampler (gl readyWorld)
       /\ calls (gl w')
          = calls (gl readyWorld)
            ++ [deleteSampler (Some 0%nat); deleteSampler (Some 0%nat)]
       /\ invocations w' !! 4%nat
          = Some {| target := 0; called := GetSampler;
                    state := returned (Some 0%nat) |}.
Proof.
  split; [reflexivity|].
  exact (delete_keeps_state readyWorld 0 _ eq_refl eq_refl).
Defined.

End Lifecycle.

(** ** Accounting for the native calls *)

Section Accounting.

Import Sampler Runtime Invariant Ledger.

Lemma count_app {A : Type} (p : A -> bool) (l1 l2 : list A) :
  count p (l1 ++ l2) = count p l1 + count p l2.
Proof. unfold count. by rewrite List.filter_app, length_app. Qed.

Lemma count_cons {A : Type} (p : A -> bool) (x : A) (l : list A) :
  count p (x :: l) = (if p x then 1 else 0) + count p l.
Proof. unfold count. simpl. by destruct (p x). Qed.

(** Replacing one element moves the count by that element alone. *)
Lemma count_insert {A : Type} (p : A -> bool) (l : list A) (i : nat)
  (x y : A) :
  l !! i = Some y ->
  count p (<[i := x]> l) + (if p y then 1 else 0)
  = count p l + (if p x then 1 else 0).
Proof.
  intros Hy. rewrite insert_take_drop by by eapply lookup_lt_Some.
  rewrite <- (take_drop_middle l i y Hy) at 3.
  rewrite !count_app, !count_cons. lia.
Qed.

Lemma count_replace {A : Type} (p : A -> bool) (l : list A) (i : nat)
  (x y : A) (bx by' : bool) :
  l !! i = Some y -> p y = by' -> p x = bx ->
  count p (<[i := x]> l) + Nat.b2n by' = count p l + Nat.b2n bx.
Proof.
  intros Hy <- <-. pose proof (count_insert p l i x y Hy) as H.
  destruct (p x), (p y); simpl; lia.
Qed.

Lemma count_positive {A : Type} (p : A -> bool) (l : list A) :
  0 < count p l -> exists i x, l !! i = Some x /\ p x = true.
Proof.
  induction l as [|x l IH]; [unfold count; simpl; lia|].
  rewrite count_cons. destruct (p x) eqn:E.
  - intros _. by exists 0, x.
  - intros H. destruct IH as (i & y & Hy & Hp); [lia|]. by exists (S i), y.
Qed.

Lemma count_parameterCalls (c : closure) (s : WebGLSampler) :
  count isCreate (parameterCalls c s) = 0
  /\ count isDelete (parameterCalls c s) = 0
  /\ length (parameterCalls c s) = 9.
Proof. by repeat split. Qed.

Lemma count_thrown (c : closure) (s : WebGLSampler) (k : nat) :
  k < 10 ->
  length (take k (createSampler s :: parameterCalls c s)) = k
  /\ count isDelete (take k (createSampler s :: parameterCalls c s)) = 0
  /\ count isCreate (take k (createSampler s :: parameterCalls c s))
     = match k with O => 0 | S _ => 1 end.
Proof.
  intros Hk. do 10 (destruct k as [|k]; [by repeat split|]). lia.
Qed.

Lemma count_settled (l : list Sampler.t) :
  count isSettled l = count isReady l + count isRejected l.
Proof.
  induction l as [|this l IH]; [reflexivity|].
  rewrite !count_cons, IH. unfold isSettled, isReady, isRejected.
  destruct (ready this); simpl; lia.
Qed.

Lemma ledger_refl (w : world) : ledger w w [].
Proof. unfold ledger. simpl. lia. Qed.

Lemma ledger_cons (w0 w1 w : world) (a : action) (rest : list action) :
  ledger w0 w1 [a] -> ledger w1 w rest -> ledger w0 w (a :: rest).
Proof. unfold ledger. simpl. lia. Qed.

(** The books of one step. *)
Lemma step_ledger (w w' : world) (a : action) :
  step w a = Some w' -> ledger w w' [a].
Proof.
  intros Hstep. unfold ledger.
  destruct a as [|reason|props|o|o m|i|o k reason|i k reason].
  8: { destruct (step_ResumeThrows_inv _ _ _ _ _ Hstep)
         as (o & this & Hi & _ & _ & _ & _ & -> & -> & ->).
       pose proof (count_replace hasDeleted _ _
         {| target := o; called := Delete; state := failed reason |}
         _ false false Hi eq_refl eq_refl) as Hn.
       simpl in *. lia. }
  - simpl in Hstep. unfold settleContext in Hstep.
    destruct (contextReady w); try discriminate.
    injection Hstep as <-. simpl. lia.
  - simpl in Hstep. unfold settleContext in Hstep.
    destruct (contextReady w); try discriminate.
    injection Hstep as <-. simpl. lia.
  - injection Hstep as <-. simpl. rewrite !count_app.
    change (count isReady [constructor props]) with 0.
    change (count isRejected [constructor props]) with 0. lia.
  - destruct (step_Initialize_inv _ _ _ Hstep)
      as (this & Hthis & Hp & -> & _ & Hcase).
    assert (Hold : isReady this = false) by (unfold isReady; by rewrite Hp).
    assert (Hold' : isRejected this = false)
      by (unfold isRejected; by rewrite Hp).
    destruct Hcase as [(_ & -> & ->)|(reason & _ & -> & ->)]; cbn [calls].
    + pose proof (count_replace isReady _ _
        {| captured := captured this; ready := fulfilled;
           sampler := Some (nextSampler (gl w)) |} _ true false
        Hthis Hold eq_refl) as Hi.
      pose proof (count_replace isRejected _ _
        {| captured := captured this; ready := fulfilled;
           sampler := Some (nextSampler (gl w)) |} _ false false
        Hthis Hold' eq_refl) as Hj.
      destruct (count_parameterCalls (captured this) (nextSampler (gl w)))
        as (P1 & P2 & P3).
      rewrite !count_app, !count_cons, length_app, length_cons.
      rewrite P1, P2, P3. simpl in *. lia.
    + pose proof (count_replace isReady _ _
        {| captured := captured this; ready := rejected reason;
           sampler := sampler this |} _ false false
        Hthis Hold eq_refl) as Hi.
      pose proof (count_replace isRejected _ _
        {| captured := captured this; ready := rejected reason;
           sampler := sampler this |} _ true false
        Hthis Hold' eq_refl) as Hj.
      simpl in *. lia.
  - simpl in Hstep. destruct (objects w !! o); [|discriminate].
    injection Hstep as <-. simpl. rewrite count_app.
    assert (count hasDeleted
              [{| target := o; called := m; state := suspended |}] = 0)
      as -> by by destruct m.
    lia.
  - destruct (step_Resume_inv _ _ _ Hstep)
      as (o & m & this & Hi & _ & _ & -> & Hcase).
    destruct Hcase as [(_ & -> & -> & ->)
                      |[(_ & -> & -> & ->)|(reason & _ & -> & ->)]].
    + pose proof (count_replace hasDeleted _ _
        {| target := o; called := GetSampler;
           state := returned (sampler this) |} _ false false
        Hi eq_refl eq_refl) as Hn.
      simpl in *. lia.
    + pose proof (count_replace hasDeleted _ _
        {| target := o; called := Delete; state := returned None |}
        _ true false Hi eq_refl eq_refl) as Hn.
      cbn [calls]. rewrite !count_app, length_app.
      change (count isCreate [deleteSampler (sampler this)]) with 0.
      change (count isDelete [deleteSampler (sampler this)]) with 1.
      simpl in *. lia.
    + destruct m;
        match type of Hi with
        | _ = Some {| target := _; called := ?m0; state := _ |} =>
            pose proof (count_replace hasDeleted _ _
              {| target := o; called := m0; state := failed reason |}
              _ false false Hi eq_refl eq_refl) as Hn
        end; simpl in *; lia.
  - destruct (step_InitializeThrows_inv _ _ _ _ _ Hstep)
      as (this & Hthis & Hp & -> & _ & _ & Hk & -> & ->).
    assert (Hold : isReady this = false) by (unfold isReady; by rewrite Hp).
    assert (Hold' : isRejected this = false)
      by (unfold isRejected; by rewrite Hp).
    pose proof (count_replace isReady _ _
      {| captured := captured this; ready := rejected reason;
         sampler := sampler this |} _ false false
      Hthis Hold eq_refl) as Hi.
    pose proof (count_replace isRejected _ _
      {| captured := captured this; ready := rejected reason;
         sampler := sampler this |} _ true false
      Hthis Hold' eq_refl) as Hj.
    destruct (count_thrown (captured this) (nextSampler (gl w)) k Hk)
      as (T1 & T2 & T3).
    cbn [calls]. rewrite !count_app, length_app, T1, T2, T3.
    destruct k; simpl in *; lia.
Qed.

Lemma run_ledger (schedule : list action) (w0 w : world) :
  run w0 schedule = Some w -> ledger w0 w schedule.
Proof.
  revert w0. induction schedule as [|a rest IH]; intros w0 Hrun.
  - injection Hrun as <-. apply ledger_refl.
  - rewrite run_cons in Hrun.
    destruct (step w0 a) as [w1|] eqn:Ha; [|discriminate].
    eapply ledger_cons; [by apply step_ledger|by apply IH].
Qed.

(** A property that holds initially and is kept by every step, taken in
    a world that satisfies the invariant, holds in every reachable
    world. *)
Lemma reachable_induction (P : world -> Prop) :
  P initial ->
  (forall w w' a, invariant w -> P w -> step w a = Some w' -> P w') ->
  forall w, reachable w -> P w.
Proof.
  intros H0 Hstep w [schedule Hrun].
  pose proof invariant_initial as I0.
  revert Hrun H0 I0. generalize initial. revert w.
  induction schedule as [|a rest IH]; intros w w0 Hrun H0 I0.
  - by injection Hrun as <-.
  - rewrite run_cons in Hrun.
    destruct (step w0 a) as [w1|] eqn:Ha; [|discriminate].
    eapply IH; [exact Hrun| |].
    + by eapply Hstep.
    + by eapply step_invariant.
Qed.

(** *** Samplers are created once, before they are used, and not shared *)

Lemma held_sampler (w : world) (o : nat) (this : Sampler.t)
  (s : WebGLSampler) :
  invariant w -> objects w !! o = Some this -> sampler this = Some s ->
  ready this = fulfilled
  /\ initialized (captured this) s (calls (gl w))
  /\ s < nextSampler (gl w).
Proof.
  intros Hinv Hthis Hs. pose proof (inv_objects _ Hinv _ _ Hthis) as Hok.
  unfold objectOk in Hok. destruct (ready this).
  - congruence.
  - destruct Hok as (s' & Hs' & Hi).
    assert (s' = s) as -> by congruence.
    split; [reflexivity|]. split; [exact Hi|].
    eapply fresh_created; [apply (inv_fresh _ Hinv)|exact Hi].
  - destruct Hok. congruence.
Qed.

Lemma count_creates_thrown (c : closure) (s n k : nat) :
  k < 10 ->
  count (creates s) (take k (createSampler n :: parameterCalls c n))
  = match k with O => 0 | S _ => if Nat.eqb s n then 1 else 0 end.
Proof.
  intros Hk.
  do 10 (destruct k as [|k];
         [unfold count; simpl; by destruct (Nat.eqb s n)|]).
  lia.
Qed.

Lemma thrown_head (c : closure) (n k : nat) (x : call) (rest : list call) :
  take k (createSampler n :: parameterCalls c n) = x :: rest ->
  x = createSampler n.
Proof. destruct k; simpl; [discriminate|]. by intros [= <- _]. Qed.

Lemma step_createdOnce (w w' : world) (a : action) :
  createdOnce (gl w) -> step w a = Some w' -> createdOnce (gl w').
Proof.
  unfold createdOnce. intros H Hstep.
  destruct a as [|reason|props|o|o m|i|o k reason|i k reason].
  8: { destruct (step_ResumeThrows_inv _ _ _ _ _ Hstep)
         as (_ & _ & _ & _ & _ & _ & _ & _ & -> & _). exact H. }
  7: { destruct (step_InitializeThrows_inv _ _ _ _ _ Hstep)
         as (this & _ & _ & _ & _ & _ & Hk & -> & _).
       intros s. cbn [calls nextSampler].
       rewrite count_app, H, (count_creates_thrown _ _ _ _ Hk).
       destruct k; [lia|].
       destruct (Nat.ltb_spec s (nextSampler (gl w)));
         destruct (Nat.ltb_spec s (S (nextSampler (gl w))));
         destruct (Nat.eqb_spec s (nextSampler (gl w))); lia. }
  - simpl in Hstep. unfold settleContext in Hstep.
    destruct (contextReady w); try discriminate. by injection Hstep as <-.
  - simpl in Hstep. unfold settleContext in Hstep.
    destruct (contextReady w); try discriminate. by injection Hstep as <-.
  - by injection Hstep as <-.
  - destruct (step_Initialize_inv _ _ _ Hstep)
      as (this & _ & _ & _ & _ & Hcase).
    destruct Hcase as [(_ & -> & _)|(reason & _ & -> & _)]; [|exact H].
    intros s. cbn [calls nextSampler]. rewrite count_app, count_cons, H.
    assert (count (creates s)
              (parameterCalls (captured this) (nextSampler (gl w))) = 0)
      as -> by reflexivity.
    cbn [creates].
    destruct (Nat.ltb_spec s (nextSampler (gl w)));
      destruct (Nat.ltb_spec s (S (nextSampler (gl w))));
      destruct (Nat.eqb_spec s (nextSampler (gl w))); lia.
  - simpl in Hstep. destruct (objects w !! o); [|discriminate].
    by injection Hstep as <-.
  - destruct (step_Resume_inv _ _ _ Hstep)
      as (o & m & this & _ & _ & _ & _ & Hcase).
    destruct Hcase as [(_ & _ & -> & _)
                      |[(_ & _ & -> & _)|(reason & _ & -> & _)]];
      try exact H.
    intros s. cbn [calls nextSampler]. rewrite count_app, H.
    change (count (creates s) [deleteSampler (sampler this)]) with 0. lia.
Qed.

Lemma step_unshared (w w' : world) (a : action) :
  invariant w -> unshared (objects w) -> step w a = Some w' ->
  unshared (objects w').
Proof.
  intros Hinv H Hstep.
  destruct a as [|reason|props|o|o m|i|o k reason|i k reason].
  8: { destruct (step_ResumeThrows_inv _ _ _ _ _ Hstep)
         as (_ & _ & _ & _ & _ & _ & _ & -> & _). exact H. }
  7: { destruct (step_InitializeThrows_inv _ _ _ _ _ Hstep)
         as (this & Hthis & Hp & _ & _ & _ & _ & _ & ->).
       pose proof (inv_objects _ Hinv _ _ Hthis) as Hok.
       unfold objectOk in Hok. rewrite Hp in Hok.
       intros o1 o2 this1 this2 s H1 H2 S1 S2.
       apply list_lookup_insert_Some in H1 as [(_ & <- & _)|(N1 & H1)];
         [simpl in S1; congruence|].
       apply list_lookup_insert_Some in H2 as [(_ & <- & _)|(N2 & H2)];
         [simpl in S2; congruence|].
       by eapply H. }
  - simpl in Hstep. unfold settleContext in Hstep.
    destruct (contextReady w); try discriminate. by injection Hstep as <-.
  - simpl in Hstep. unfold settleContext in Hstep.
    destruct (contextReady w); try discriminate. by injection Hstep as <-.
  - injection Hstep as <-. simpl. intros o1 o2 this1 this2 s H1 H2 S1 S2.
    apply lookup_app_Some in H1 as [H1|[_ H1]];
      [|apply list_lookup_singleton_Some in H1 as [_ <-]; discriminate].
    apply lookup_app_Some in H2 as [H2|[_ H2]];
      [|apply list_lookup_singleton_Some in H2 as [_ <-]; discriminate].
    by eapply H.
  - destruct (step_Initialize_inv _ _ _ Hstep)
      as (this & Hthis & Hp & _ & _ & Hcase).
    pose proof (inv_objects _ Hinv _ _ Hthis) as Hok.
    unfold objectOk in Hok. rewrite Hp in Hok.
    assert (Hobj : exists new,
               objects w' = <[o := new]> (objects w)
               /\ (forall s, sampler new = Some s ->
                             s = nextSampler (gl w))).
    { destruct Hcase as [(_ & _ & ->)|(reason & _ & _ & ->)];
        eexists; (split; [reflexivity|]); simpl; congruence. }
    destruct Hobj as (new & -> & Hnew).
    intros o1 o2 this1 this2 s H1 H2 S1 S2.
    apply list_lookup_insert_Some in H1 as [(<- & <- & _)|(N1 & H1)];
      apply list_lookup_insert_Some in H2 as [(E2 & <- & _)|(N2 & H2)].
    + exact E2.
    + rewrite (Hnew _ S1) in S2.
      destruct (held_sampler _ _ _ _ Hinv H2 S2) as (_ & _ & Hlt). lia.
    + rewrite (Hnew _ S2) in S1.
      destruct (held_sampler _ _ _ _ Hinv H1 S1) as (_ & _ & Hlt). lia.
    + by eapply H.
  - simpl in Hstep. destruct (objects w !! o); [|discriminate].
    by injection Hstep as <-.
  - destruct (step_Resume_inv _ _ _ Hstep)
      as (o & m & this & _ & _ & _ & -> & _). exact H.
Qed.

Lemma step_createdFirst (w w' : world) (a : action) :
  invariant w -> createdFirst (calls (gl w)) -> step w a = Some w' ->
  createdFirst (calls (gl w')).
Proof.
  intros Hinv H Hstep.
  destruct a as [|reason|props|o|o m|i|o k reason|i k reason].
  8: { destruct (step_ResumeThrows_inv _ _ _ _ _ Hstep)
         as (_ & _ & _ & _ & _ & _ & _ & _ & -> & _). exact H. }
  7: { destruct (step_InitializeThrows_inv _ _ _ _ _ Hstep)
         as (this & _ & _ & _ & _ & _ & _ & -> & _).
       cbn [calls]. set (n := nextSampler (gl w)).
       intros before c after s E Hn.
       apply List.app_eq_app in E as [m [[E1 E2]|[E1 E2]]].
       - destruct m as [|x m]; simpl in E2.
         + symmetry in E2. apply thrown_head in E2 as ->.
           simpl in Hn. subst s. by left.
         + injection E2 as <- _. by eapply H.
       - assert (Hs : s = n).
         { eapply initializer_calls_name; [|exact Hn].
           eapply in_take_block. rewrite E2. apply in_elt. }
         subst s. destruct m as [|x m]; simpl in E2.
         + apply thrown_head in E2 as ->. by left.
         + apply thrown_head in E2 as ->. right. rewrite E1.
           apply in_or_app. right. by left. }
  - simpl in Hstep. unfold settleContext in Hstep.
    destruct (contextReady w); try discriminate. by injection Hstep as <-.
  - simpl in Hstep. unfold settleContext in Hstep.
    destruct (contextReady w); try discriminate. by injection Hstep as <-.
  - by injection Hstep as <-.
  - destruct (step_Initialize_inv _ _ _ Hstep)
      as (this & _ & _ & _ & _ & Hcase).
    destruct Hcase as [(_ & -> & _)|(reason & _ & -> & _)]; [|exact H].
    cbn [calls]. set (n := nextSampler (gl w)).
    intros before c after s E Hn.
    apply List.app_eq_app in E as [m [[E1 E2]|[E1 E2]]].
    + destruct m as [|x m]; simpl in E2.
      * injection E2 as -> _. simpl in Hn. subst s. by left.
      * injection E2 as <- _. by eapply H.
    + assert (Hs : s = n).
      { eapply initializer_calls_name; [|exact Hn].
        rewrite E2. apply in_elt. }
      subst s. destruct m as [|x m]; simpl in E2.
      * injection E2 as <- _. by left.
      * injection E2 as <- _. right. rewrite E1.
        apply in_or_app. right. by left.
  - simpl in Hstep. destruct (objects w !! o); [|discriminate].
    by injection Hstep as <-.
  - destruct (step_Resume_inv _ _ _ Hstep)
      as (o & m & this & _ & Hthis & _ & _ & Hcase).
    destruct Hcase as [(_ & _ & -> & _)
                      |[(_ & _ & -> & _)|(reason & _ & -> & _)]];
      try exact H.
    cbn [calls]. intros before c after s E Hn.
    apply log_split_last in E as [(-> & -> & _)|(after' & E & _)];
      [|by eapply H].
    right. simpl in Hn. destruct (sampler this) as [s'|] eqn:Hs; [|done].
    subst s'.
    destruct (held_sampler _ _ _ _ Hinv Hthis Hs) as (_ & Hi & _).
    by eapply initialized_created.
Qed.

Lemma reachable_createdOnce (w : world) :
  reachable w -> createdOnce (gl w).
Proof.
  apply (reachable_induction (fun w => createdOnce (gl w))).
  - intros s. reflexivity.
  - intros w0 w1 a _. apply step_createdOnce.
Qed.

Lemma reachable_unshared (w : world) :
  reachable w -> unshared (objects w).
Proof.
  apply (reachable_induction (fun w => unshared (objects w))).
  - intros o1 o2 this1 this2 s H1. by destruct o1.
  - intros w0 w1 a. apply step_unshared.
Qed.

Lemma reachable_createdFirst (w : world) :
  reachable w -> createdFirst (calls (gl w)).
Proof.
  apply (reachable_induction (fun w => createdFirst (calls (gl w)))).
  - intros before c after s E. by destruct before.
  - intros w0 w1 a. apply step_createdFirst.
Qed.

(** X1: the log of native calls is accounted for by the objects, the
    calls and the runs in which a native call threw: it holds one
    [deleteSampler] per [delete] that has returned; one [createSampler]
    per instance whose [ready] has succeeded and one per run that threw
    after its [createSampler]; in all ten calls per ready instance, one
    per returned [delete] and the calls that the runs that threw had
    carried out, which are at most nine for each rejected instance.
    [getSampler] adds none. *)
Theorem native_calls_accounted (schedule : list action) (w : world) :
  run initial schedule = Some w ->
  count isDelete (calls (gl w)) = count hasDeleted (invocations w)
  /\ count isCreate (calls (gl w))
     = count isReady (objects w) + total startedBy schedule
  /\ length (calls (gl w))
     = 10 * count isReady (objects w) + count hasDeleted (invocations w)
       + total carriedBy schedule
  /\ total startedBy schedule <= count isRejected (objects w)
  /\ total carriedBy schedule <= 9 * count isRejected (objects w).
Proof.
  intros Hrun. apply run_ledger in Hrun. unfold ledger in Hrun.
  simpl in Hrun. unfold count in *. simpl in Hrun. lia.
Qed.

(** X2: no two instances hold the same native sampler; an instance holds
    one exactly when its [ready] has succeeded, and the sampler it holds
    was created by exactly one [createSampler] of the log. *)
Theorem samplers_not_shared (w : world) :
  reachable w ->
  (forall o1 o2 this1 this2 s,
     objects w !! o1 = Some this1 -> objects w !! o2 = Some this2 ->
     sampler this1 = Some s -> sampler this2 = Some s ->
     o1 = o2)
  /\ (forall o this,
        objects w !! o = Some this ->
        (is_Some (sampler this) <-> ready this = fulfilled)
        /\ forall s, sampler this = Some s ->
                     count (creates s) (calls (gl w)) = 1).
Proof.
  intros Hreach. split; [by apply reachable_unshared|].
  intros o this Hthis. pose proof (reachable_invariant _ Hreach) as Hinv.
  split; [split|].
  - intros [s Hs]. by destruct (held_sampler _ _ _ _ Hinv Hthis Hs).
  - intros Hr. pose proof (inv_objects _ Hinv _ _ Hthis) as Hok.
    unfold objectOk in Hok. rewrite Hr in Hok.
    destruct Hok as (s & -> & _). eauto.
  - intros s Hs.
    destruct (held_sampler _ _ _ _ Hinv Hthis Hs) as (_ & _ & Hlt).
    rewrite (reachable_createdOnce _ Hreach s).
    by destruct (Nat.ltb_spec s (nextSampler (gl w))); [|lia].
Qed.

(** X3: every call of the log that names a sampler, a parameter-set call
    or a [deleteSampler], comes after the [createSampler] that returned
    that sampler: the code never hands the context a sampler it has not
    created. *)
Theorem sampler_created_before_use (w : world) :
  reachable w ->
  forall before c after s,
    calls (gl w) = before ++ c :: after ->
    names c s ->
    c = createSampler s \/ In (createSampler s) before.
Proof. apply reachable_createdFirst. Qed.

(** X4: the constructor's closure is never written again, the field
    [sampler] and [ready] are written once: from a world on, an instance
    keeps its closure, and once its [ready] has settled it stays the
    object it is, handle included, whatever is scheduled later. *)
Theorem instance_written_once (w w' : world) (later : list action)
  (o : nat) (this : Sampler.t) :
  reachable w ->
  run w later = Some w' ->
  objects w !! o = Some this ->
  exists this',
    objects w' !! o = Some this'
    /\ captured this' = captured this
    /\ (ready this <> pending -> this' = this)
    /\ (ready this = pending -> sampler this = None).
Proof.
  intros Hreach Hrun Hthis.
  destruct (run_object _ _ _ _ _ Hrun Hthis) as (this' & H' & Hc & Hs).
  exists this'. repeat split; auto.
  intros Hp. pose proof (inv_objects _ (reachable_invariant _ Hreach) _ _ Hthis) as Hok.
  unfold objectOk in Hok. by rewrite Hp in Hok.
Qed.


(** *** Draining the event loop *)

Lemma count_zero {A : Type} (p : A -> bool) (l : list A) (i : nat)
  (x : A) :
  count p l = 0 -> l !! i = Some x -> p x = false.
Proof.
  revert i. induction l as [|y l IH]; intros i Hc Hx; [by destruct i|].
  rewrite count_cons in Hc. destruct i as [|i]; simpl in Hx.
  - injection Hx as ->. destruct (p x); [simpl in Hc; lia|reflexivity].
  - apply (IH i); [lia|exact Hx].
Qed.

Lemma initialize_enabled (w : world) (o : nat) (this : Sampler.t) :
  objects w !! o = Some this -> ready this = pending ->
  contextReady w <> pending ->
  exists w', step w (Initialize o) = Some w'.
Proof.
  intros Hthis Hp Hc. unfold step, resumeRoutine. rewrite Hthis, Hp.
  unfold initialization, await.
  destruct (contextReady w); [by destruct Hc| |].
  - rewrite initializer_runs. eauto.
  - unfold throw. eauto.
Qed.

Lemma resume_enabled (w : world) (i o : nat) (m : method)
  (this : Sampler.t) :
  invocations w !! i
  = Some {| target := o; called := m; state := suspended |} ->
  objects w !! o = Some this -> ready this <> pending ->
  exists w', step w (Resume i) = Some w'.
Proof.
  intros Hi Hthis Hr. unfold step, resumeCall. rewrite Hi, Hthis.
  unfold body, getSampler, delete, await.
  destruct (ready this); [by destruct Hr| |]; destruct m; simpl; eauto.
Qed.

Lemma initialize_backlog (w w' : world) (o : nat) :
  step w (Initialize o) = Some w' ->
  contextReady w' = contextReady w /\ S (backlog w') = backlog w.
Proof.
  intros Hstep.
  destruct (step_Initialize_inv _ _ _ Hstep)
    as (this & Hthis & Hp & Hinv & Hc & Hcase).
  split; [exact Hc|]. unfold backlog. rewrite Hinv.
  assert (Hold : isPending this = true) by (unfold isPending; by rewrite Hp).
  destruct Hcase as [(_ & _ & ->)|(reason & _ & _ & ->)];
    match goal with
    | |- context [<[o := ?new]> (objects w)] =>
        pose proof (count_replace isPending _ _ new _ false true
                      Hthis Hold eq_refl) as Hn
    end; simpl in Hn; lia.
Qed.

Lemma resume_backlog (w w' : world) (i : nat) :
  step w (Resume i) = Some w' ->
  contextReady w' = contextReady w /\ S (backlog w') = backlog w.
Proof.
  intros Hstep.
  destruct (step_Resume_inv _ _ _ Hstep)
    as (o & m & this & Hi & _ & Hc & Hobj & Hcase).
  split; [exact Hc|]. unfold backlog. rewrite Hobj.
  destruct Hcase as [(_ & _ & _ & ->)
                    |[(_ & _ & _ & ->)|(reason & _ & _ & ->)]];
    match goal with
    | |- context [<[i := ?new]> (invocations w)] =>
        pose proof (count_replace isSuspended _ _ new _ false true
                      Hi eq_refl eq_refl) as Hn
    end; simpl in Hn; lia.
Qed.

Lemma drain (n : nat) :
  forall w,
    reachable w -> contextReady w <> pending -> backlog w = n ->
    exists schedule w',
      run w schedule = Some w'
      /\ length schedule = n
      /\ backlog w' = 0.
Proof.
  induction n as [|n IH]; intros w Hreach Hc Hn.
  - exists [], w. by repeat split.
  - pose proof (reachable_invariant _ Hreach) as Hinv.
    assert (Hstep : exists a w1,
               step w a = Some w1
               /\ contextReady w1 = contextReady w
               /\ S (backlog w1) = backlog w).
    { destruct (Nat.eq_dec (count isPending (objects w)) 0) as [Hz|Hnz].
      - destruct (count_positive isSuspended (invocations w))
          as (i & [o m st] & Hi & Hs); [unfold backlog in Hn; lia|].
        unfold isSuspended in Hs. simpl in Hs.
        destruct st; try discriminate.
        destruct (inv_invocations _ Hinv _ _ Hi) as (this & Hthis & _).
        simpl in Hthis.
        pose proof (count_zero _ _ _ _ Hz Hthis) as Hnp.
        destruct (resume_enabled w i o m this Hi Hthis) as [w1 H1].
        { unfold isPending in Hnp. intros E. by rewrite E in Hnp. }
        exists (Resume i), w1. split; [exact H1|].
        exact (resume_backlog _ _ _ H1).
      - destruct (count_positive isPending (objects w))
          as (o & this & Hthis & Hp); [lia|].
        unfold isPending in Hp.
        destruct (ready this) eqn:Hr; try discriminate.
        destruct (initialize_enabled w o this Hthis Hr Hc) as [w1 H1].
        exists (Initialize o), w1. split; [exact H1|].
        exact (initialize_backlog _ _ _ H1). }
    destruct Hstep as (a & w1 & H1 & Hc1 & Hb1).
    destruct (IH w1) as (schedule & w' & Hrun & Hlen & Hb).
    + apply (reachable_run w w1 [a] Hreach). by rewrite run_cons, H1.
    + congruence.
    + lia.
    + exists (a :: schedule), w'. rewrite run_cons, H1. simpl.
      split; [exact Hrun|]. split; [lia|exact Hb].
Qed.

(** C3: an instance is initialized at most once, however often and
    in whatever interleaving its readiness is awaited, and every await
    observes the one outcome.  On the schedule: the routine behind
    [ready] runs at most once per instance.  On the log: between any two
    worlds of a run, the log grows by at most ten calls, one
    [createSampler] among them, for each instance that settles in
    between, and by one call for each [delete] that returns, so an await
    adds nothing; the sampler an instance holds was created by one
    [createSampler] and configured by one set of nine calls.  On the
    object: an instance whose [ready] has settled, with success or with
    failure, is the same object in every later world, outcome and stored
    handle.  On the awaits: a call suspended on such an instance resumes
    in any later world and finishes by the outcome as it was settled,
    with the stored handle or the reason of the failure, without a
    native call unless it is a [delete] on a ready instance; and a call
    that has finished returned on a [ready] that has succeeded, or failed
    with the reason [ready] has failed with, or is a [delete] whose
    native call threw after [ready] had succeeded. *)
Theorem readiness_settles_once (schedule : list action) (w : world) :
  run initial schedule = Some w ->
  (forall o, (initializations o schedule <= 1)%nat)
  /\ (forall later w',
        run w later = Some w' ->
        length (calls (gl w')) + 10 * count isSettled (objects w)
        + count hasDeleted (invocations w)
        <= length (calls (gl w)) + 10 * count isSettled (objects w')
           + count hasDeleted (invocations w')
        /\ count isCreate (calls (gl w')) + count isSettled (objects w)
           <= count isCreate (calls (gl w)) + count isSettled (objects w')
        /\ (forall o this,
              objects w !! o = Some this ->
              ready this <> pending ->
              objects w' !! o = Some this))
  /\ (forall o this s,
        objects w !! o = Some this ->
        sampler this = Some s ->
        count (creates s) (calls (gl w)) = 1
        /\ parameterization s (calls (gl w))
           = parameterCalls (captured this) s)
  /\ (forall later w' i o m this,
        run w later = Some w' ->
        objects w !! o = Some this ->
        ready this <> pending ->
        invocations w' !! i
        = Some {| target := o; called := m; state := suspended |} ->
        exists w'',
          step w' (Resume i) = Some w''
          /\ invocations w'' !! i
             = Some {| target := o; called := m;
                       state := match ready this with
                                | rejected reason => failed reason
                                | _ => returned match m with
                                                | GetSampler => sampler this
                                                | Delete => None
                                                end
                                end |}
          /\ objects w'' = objects w'
          /\ (m = GetSampler \/ ready this <> fulfilled -> gl w'' = gl w'))
  /\ (forall i t,
        invocations w !! i = Some t ->
        state t <> suspended ->
        exists this,
          objects w !! target t = Some this
          /\ match state t with
             | suspended => False
             | returned _ => ready this = fulfilled
             | failed reason =>
                 ready this = rejected reason
                 \/ (ready this = fulfilled /\ called t = Delete)
             end).
Proof.
  intros Hrun.
  assert (Hreach : reachable w) by by exists schedule.
  pose proof (reachable_invariant _ Hreach) as Hinv.
  split; [|split; [|split; [|split]]].
  - intros o. pose proof (initializations_counted _ _ Hrun o) as Hc.
    unfold counted in Hc.
    destruct (objects w !! o); [destruct Hc as [[_ ->]|[_ ->]]|rewrite Hc];
      lia.
  - intros later w' Hlater.
    pose proof (run_ledger _ _ _ Hlater) as L. unfold ledger in L.
    rewrite !count_settled. split; [lia|]. split; [lia|].
    intros o this Hthis Hne.
    destruct (run_object _ _ _ _ _ Hlater Hthis) as (this' & H' & _ & Hs).
    by rewrite <- (Hs Hne).
  - intros o this s Hthis Hs.
    destruct (held_sampler _ _ _ _ Hinv Hthis Hs) as (_ & [_ Hi] & Hlt).
    split; [|exact Hi].
    rewrite (reachable_createdOnce _ Hreach s).
    by destruct (Nat.ltb_spec s (nextSampler (gl w))); [|lia].
  - intros later w' i o m this Hlater Hthis Hne Hi.
    destruct (run_object _ _ _ _ _ Hlater Hthis) as (this' & H' & _ & Hs).
    rewrite (Hs Hne) in H'. clear this' Hs.
    destruct (resume_enabled _ _ _ _ _ Hi H' Hne) as [w'' Hstep].
    exists w''. split; [exact Hstep|].
    destruct (step_Resume_inv _ _ _ Hstep)
      as (o' & m' & this' & Hi' & Hthis' & _ & Hobj & Hcase).
    rewrite Hi in Hi'. injection Hi' as <- <-.
    assert (this' = this) as -> by congruence.
    assert (Hlt : (i < length (invocations w'))%nat)
      by by eapply lookup_lt_Some.
    destruct Hcase as [(Hr & -> & Hgl & Ht)
                      |[(Hr & -> & Hgl & Ht)|(reason & Hr & Hgl & Ht)]];
      rewrite Hr, Ht, list_lookup_insert_eq by exact Hlt;
      (split; [reflexivity|]); (split; [exact Hobj|]); try done.
    intros [E|E]; [discriminate|by destruct E].
  - intros i t Hi Hne.
    destruct (inv_invocations _ Hinv i t Hi) as (this & Hthis & Hs).
    exists this. split; [exact Hthis|].
    destruct (state t); [by destruct Hne| |exact Hs].
    by destruct Hs.
Qed.

(** X6: nothing gets stuck: once the context's readiness has settled,
    with success or with failure, the event loop can run every pending
    instance and every suspended call to its end, in as many actions as
    there are of them; afterwards no [ready] is pending and no call is
    suspended. *)
Theorem event_loop_drains (w : world) :
  reachable w ->
  contextReady w <> pending ->
  exists schedule w',
    run w schedule = Some w'
    /\ length schedule = backlog w
    /\ (forall o this, objects w' !! o = Some this -> ready this <> pending)
    /\ (forall i t, invocations w' !! i = Some t -> state t <> suspended).
Proof.
  intros Hreach Hc.
  destruct (drain (backlog w) w Hreach Hc eq_refl)
    as (schedule & w' & Hrun & Hlen & Hb).
  exists schedule, w'. split; [exact Hrun|]. split; [exact Hlen|].
  unfold backlog in Hb. split.
  - intros o this Hthis Hp.
    assert (Hz : count isPending (objects w') = 0) by lia.
    pose proof (count_zero _ _ _ _ Hz Hthis) as Hf.
    unfold isPending in Hf. by rewrite Hp in Hf.
  - intros i t Ht Hs.
    assert (Hz : count isSuspended (invocations w') = 0) by lia.
    pose proof (count_zero _ _ _ _ Hz Ht) as Hf.
    unfold isSuspended in Hf. by rewrite Hs in Hf.
Qed.

(** *** While the context has not settled *)

(** X9: while the context's readiness is pending nothing runs: the log is
    empty, every instance is pending and holds no sampler, every call of
    [getSampler] or [delete] is suspended at its await, and neither an
    instance's routine nor a suspended call can resume. *)
Theorem nothing_runs_before_context (w : world) :
  reachable w ->
  contextReady w = pending ->
  calls (gl w) = []
  /\ (forall o this,
        objects w !! o = Some this ->
        ready this = pending /\ sampler this = None)
  /\ (forall i t, invocations w !! i = Some t -> state t = suspended)
  /\ (forall o, step w (Initialize o) = None)
  /\ (forall i, step w (Resume i) = None)
  /\ (forall o k reason, step w (InitializeThrows o k reason) = None)
  /\ (forall i k reason, step w (ResumeThrows i k reason) = None).
Proof.
  intros Hreach Hc. pose proof (reachable_invariant _ Hreach) as Hinv.
  assert (Hlog : calls (gl w) = []).
  { apply (inv_context _ Hinv). congruence. }
  assert (Hobj : forall o this,
             objects w !! o = Some this ->
             ready this = pending /\ sampler this = None).
  { intros o this Hthis. pose proof (inv_objects _ Hinv _ _ Hthis) as Hok.
    unfold objectOk in Hok. destruct (ready this).
    - by split.
    - destruct Hok as (s & _ & Hi). apply initialized_created in Hi.
      rewrite Hlog in Hi. destruct Hi.
    - destruct Hok as [_ [E|E]]; congruence. }
  assert (Hinvs : forall i t,
             invocations w !! i = Some t -> state t = suspended).
  { intros i t Ht.
    destruct (inv_invocations _ Hinv _ _ Ht) as (this & Hthis & Hs).
    destruct (Hobj _ _ Hthis) as [Hp _]. rewrite Hp in Hs.
    destruct (state t); [reflexivity|by destruct Hs|].
    destruct Hs as [Hs|[Hs _]]; discriminate. }
  assert (Hroutine : forall o f, resumeRoutine w o f = None).
  { intros o f. unfold resumeRoutine.
    destruct (objects w !! o) as [this|]; [|done].
    destruct (ready this); try done. by rewrite Hc. }
  assert (Hcall : forall i f, resumeCall w i f = None).
  { intros i f. unfold resumeCall.
    destruct (invocations w !! i) as [[o m st]|] eqn:Ht; [|done].
    destruct st; try done.
    destruct (objects w !! o) as [this|] eqn:Hthis; [|done].
    destruct (Hobj _ _ Hthis) as [Hp _].
    unfold body, getSampler, delete. rewrite Hp. by destruct m. }
  split; [exact Hlog|]. split; [exact Hobj|]. split; [exact Hinvs|].
  split; [|split; [|split]].
  - intros o. apply Hroutine.
  - intros i. apply Hcall.
  - intros o k reason. apply Hroutine.
  - intros i k reason. apply Hcall.
Qed.

(** *** The theorems at work *)

Import Scenario Cases.

Lemma customWorld_reachable : reachable customWorld.
Proof. exists customSchedule. reflexivity. Qed.

Lemma busyWorld_reachable : reachable busyWorld.
Proof. exists busySchedule. reflexivity. Qed.

Lemma waitingWorld_reachable : reachable waitingWorld.
Proof. exists waitingSchedule. reflexivity. Qed.

Lemma readiness_settles_once_witness :
  run initial faultySchedule = Some faultyWorld
  /\ forall o, (initializations o faultySchedule <= 1)%nat.
Proof.
  assert (H : run initial faultySchedule = Some faultyWorld) by reflexivity.
  split; [exact H|].
  exact (proj1 (readiness_settles_once faultySchedule faultyWorld H)).
Defined.

Lemma native_calls_accounted_witness :
  run initial faultySchedule = Some faultyWorld
  /\ length (calls (gl faultyWorld))
     = 10 * count isReady (objects faultyWorld)
       + count hasDeleted (invocations faultyWorld)
       + total carriedBy faultySchedule.
Proof.
  assert (H : run initial faultySchedule = Some faultyWorld) by reflexivity.
  split; [exact H|].
  exact (proj1 (proj2 (proj2
           (native_calls_accounted faultySchedule faultyWorld H)))).
Defined.

Lemma samplers_not_shared_witness :
  reachable customWorld
  /\ forall o1 o2 this1 this2 s,
       objects customWorld !! o1 = Some this1 ->
       objects customWorld !! o2 = Some this2 ->
       sampler this1 = Some s -> sampler this2 = Some s ->
       o1 = o2.
Proof.
  split; [exact customWorld_reachable|].
  exact (proj1 (samplers_not_shared customWorld customWorld_reachable)).
Defined.

Lemma sampler_created_before_use_witness :
  reachable retiredWorld
  /\ calls (gl retiredWorld)
     = calls (gl readyWorld)
       ++ deleteSampler (Some 0) :: [deleteSampler (Some 0)]
  /\ names (deleteSampler (Some 0)) 0
  /\ (deleteSampler (Some 0) = createSampler 0
      \/ In (createSampler 0) (calls (gl readyWorld))).
Proof.
  assert (H : reachable retiredWorld).
  { exists (readySchedule ++ deleteGetDelete 0 3). reflexivity. }
  assert (E : calls (gl retiredWorld)
              = calls (gl readyWorld)
                ++ deleteSampler (Some 0) :: [deleteSampler (Some 0)])
    by reflexivity.
  assert (N : names (deleteSampler (Some 0)) 0) by reflexivity.
  split; [exact H|]. split; [exact E|]. split; [exact N|].
  exact (sampler_created_before_use retiredWorld H _ _ _ _ E N).
Defined.

Lemma instance_written_once_witness :
  reachable readyWorld
  /\ run readyWorld (deleteGetDelete 0 3) = Some retiredWorld
  /\ exists this',
       objects retiredWorld !! 0 = Some this'
       /\ captured this' = destructure None
       /\ (fulfilled <> pending ->
           this' = {| captured := destructure None; ready := fulfilled;
                      sampler := Some 0 |})
       /\ (fulfilled = pending -> Some 0 = None).
Proof.
  assert (H : run readyWorld (deleteGetDelete 0 3) = Some retiredWorld)
    by reflexivity.
  split; [exact readyWorld_reachable|]. split; [exact H|].
  exact (instance_written_once readyWorld retiredWorld _ 0
           {| captured := destructure None; ready := fulfilled;
              sampler := Some 0 |}
           readyWorld_reachable H eq_refl).
Defined.


Lemma event_loop_drains_witness :
  reachable busyWorld
  /\ contextReady busyWorld <> pending
  /\ exists schedule w',
       run busyWorld schedule = Some w'
       /\ length schedule = 4
       /\ (forall o this,
             objects w' !! o = Some this -> ready this <> pending)
       /\ (forall i t,
             invocations w' !! i = Some t -> state t <> suspended).
Proof.
  assert (H : contextReady busyWorld <> pending) by discriminate.
  split; [exact busyWorld_reachable|]. split; [exact H|].
  exact (event_loop_drains busyWorld busyWorld_reachable H).
Defined.

Lemma nothing_runs_before_context_witness :
  reachable waitingWorld
  /\ contextReady waitingWorld = pending
  /\ forall i, step waitingWorld (Resume i) = None.
Proof.
  assert (H : contextReady waitingWorld = pending) by reflexivity.
  split; [exact waitingWorld_reachable|]. split; [exact H|].
  exact (proj1 (proj2 (proj2 (proj2 (proj2
           (nothing_runs_before_context waitingWorld
              waitingWorld_reachable H)))))).
Defined.

End Accounting.

(** ** The helper of the test-suite *)

Section CompareHelper.

Import TextureEnumsTest Ledger.

Lemma newMap_lookup {K V : Type} `{Countable K} (entries : list (K * V))
  (acc : gmap K V) (k : K) (v : V) :
  NoDup (map fst entries) ->
  fold_left (fun m kv => <[kv.1 := kv.2]> m) entries acc !! k = Some v
  <-> In (k, v) entries \/ (~ In k (map fst entries) /\ acc !! k = Some v).
Proof.
  revert acc. induction entries as [|[k0 v0] entries IH]; intros acc Hnd.
  - simpl. tauto.
  - apply NoDup_cons in Hnd as [Hk0 Hnd]. rewrite list_elem_of_In in Hk0.
    simpl. rewrite (IH _ Hnd). destruct (decide (k = k0)) as [->|Hne].
    + rewrite lookup_insert_eq. split.
      * intros [Hin|[Hn [= ->]]]; [by left; right|by left; left].
      * intros [[[= ->]|Hin]|[Hn _]]; [by right|by left|].
        destruct Hn. by left.
    + rewrite lookup_insert_ne by auto. split.
      * intros [Hin|[Hn Hacc]]; [by left; right|].
        right. split; [|exact Hacc]. intros [E|Hin]; [congruence|auto].
      * intros [[[= -> ->]|Hin]|[Hn Hacc]]; [by destruct Hne|by left|].
        right. split; [|exact Hacc]. intros Hin. apply Hn. by right.
Qed.


(** X7: on a map literal whose keys are pairwise distinct, [compare]
    passes exactly when every entry has a defined key that equals its
    value; a value that is [undefined] fails it. *)
Theorem compare_checks_every_entry (entries : list (option Z * option Z)) :
  NoDup (map fst entries) ->
  compare (JS.newMap entries) <-> Forall expected entries.
Proof.
  intros Hnd. unfold compare, JS.newMap. split.
  - intros Hall. apply List.Forall_forall. intros [k v] Hin.
    apply (Hall k v). apply newMap_lookup; [exact Hnd|by left].
  - intros Hall k v Hl. apply newMap_lookup in Hl; [|exact Hnd].
    destruct Hl as [Hin|[_ He]]; [|by rewrite lookup_empty in He].
    apply (proj1 (List.Forall_forall _ _) Hall (k, v) Hin).
Qed.


Lemma compare_checks_every_entry_witness :
  NoDup (map fst [(Some 1, Some 1); (Some 2, None)]%Z)
  /\ (compare (JS.newMap [(Some 1, Some 1); (Some 2, None)]%Z)
      <-> Forall expected [(Some 1, Some 1); (Some 2, None)]%Z).
Proof.
  assert (H : NoDup (map fst [(Some 1, Some 1); (Some 2, None)]%Z)).
  { apply NoDup_cons. split; [|apply NoDup_singleton].
    intros Hin. apply list_elem_of_singleton in Hin. discriminate. }
  split; [exact H|].
  exact (compare_checks_every_entry _ H).
Defined.


End CompareHelper.
